(** * webpack-html-file-injector: the loader's tag substitution pass

    A shallow embedding of [src/loader.ts].  JavaScript strings are
    sequences of UTF-16 code units; regular expressions are run by a
    backtracking matcher written after the matcher semantics of
    ECMA-262 (22.2.2), so that greediness, the optional group and the
    back-reference behave as they do in the engine the loader runs on.
    The file system, the [find] child process and Node's [path] module
    are the host: they are the fields of a record the loader's functions
    take as a Section variable. *)

From Stdlib Require Import String Ascii.
From Stdlib Require Import List Sorted NArith ZArith Lia Bool.
Import ListNotations.

Set Implicit Arguments.

(** ** Strings *)

Module Str.

Definition char := N.
Definition str := list char.

Definition lit (s : string) : str :=
  map N_of_ascii (list_ascii_of_string s).

Arguments lit s%_string.

Definition char_eqb (a b : char) : bool := N.eqb a b.

Fixpoint eqb (s t : str) : bool :=
  match s, t with
  | [], [] => true
  | a :: s', b :: t' => char_eqb a b && eqb s' t'
  | _, _ => false
  end.

(** [startsWith t s]: [t] is a prefix of [s]. *)
Fixpoint startsWith (t s : str) : bool :=
  match t, s with
  | [], _ => true
  | a :: t', b :: s' => char_eqb a b && startsWith t' s'
  | _ :: _, [] => false
  end.

(** Code units named by the loader's patterns and templates. *)
Definition TAB : char := 9%N.
Definition LF : char := 10%N.
Definition CR : char := 13%N.
Definition SPACE : char := 32%N.
Definition DQUOTE : char := 34%N.
Definition SQUOTE : char := 39%N.
Definition DOT : char := 46%N.
Definition SLASH : char := 47%N.
Definition LT : char := 60%N.
Definition GT : char := 62%N.

(** ECMA-262 LineTerminator: LF, CR, LS, PS. *)
Definition isLineTerminator (c : char) : bool :=
  (c =? 10)%N || (c =? 13)%N || (c =? 8232)%N || (c =? 8233)%N.

(** ECMA-262 WhiteSpace: TAB, VT, FF, ZWNBSP and the space separators. *)
Definition isWhiteSpace (c : char) : bool :=
  (c =? 9)%N || (c =? 11)%N || (c =? 12)%N || (c =? 32)%N || (c =? 160)%N
  || (c =? 5760)%N || ((8192 <=? c)%N && (c <=? 8202)%N)
  || (c =? 8239)%N || (c =? 8287)%N || (c =? 12288)%N || (c =? 65279)%N.

(** What [String.prototype.trim] strips and what [\s] matches. *)
Definition isSpace (c : char) : bool := isWhiteSpace c || isLineTerminator c.

Fixpoint trimStart (s : str) : str :=
  match s with
  | c :: s' => if isSpace c then trimStart s' else s
  | [] => []
  end.

Definition trimEnd (s : str) : str := rev (trimStart (rev s)).

Definition trim (s : str) : str := trimEnd (trimStart s).

(** [s.split(sep)] for a one-unit separator: never an empty array. *)
Fixpoint split (sep : char) (s : str) : list str :=
  match s with
  | [] => [[]]
  | c :: s' =>
      let fields := split sep s' in
      if char_eqb c sep then [] :: fields
      else (c :: hd [] fields) :: tl fields
  end.

Fixpoint join (sep : str) (fields : list str) : str :=
  match fields with
  | [] => []
  | [f] => f
  | f :: fs => f ++ sep ++ join sep fs
  end.

(** [s.indexOf(t)]: the first index at which [t] occurs, or -1. *)
Fixpoint indexOf (s t : str) : Z :=
  if startsWith t s then 0%Z
  else match s with
       | [] => (-1)%Z
       | _ :: s' => let i := indexOf s' t in
                    if (i <? 0)%Z then (-1)%Z else (i + 1)%Z
       end.

(** The index arithmetic of [String.prototype.slice]: a negative index
    counts from the end, and both ends are clamped to the string. *)
Definition clampIndex (len : nat) (i : Z) : nat :=
  if (i <? 0)%Z then Z.to_nat (Z.max (Z.of_nat len + i) 0)
  else Nat.min (Z.to_nat i) len.

Definition slice (s : str) (from to : Z) : str :=
  let a := clampIndex (length s) from in
  let b := clampIndex (length s) to in
  firstn (b - a) (skipn a s).

Definition sliceFrom (s : str) (from : Z) : str :=
  skipn (clampIndex (length s) from) s.

End Str.

Import Str.

(** ** Regular expressions *)

Module RegExp.

(** The pattern constructs the loader's three literals use.  A
    quantifier over a one-unit atom is [Rep]; the only quantified
    group is optional, [Opt]. *)
Inductive Regex : Type :=
| Empty
| Chr (c : char)
| Class (cls : char -> bool)
| Bol
| Eos
| Seq (r1 r2 : Regex)
| Alt (r1 r2 : Regex)
| Rep (min : nat) (max : option nat) (cls : char -> bool)
| Opt (r : Regex)
| Group (n : nat) (r : Regex)
| BackRef (n : nat).

Definition Captures := nat -> option str.

Definition noCaptures : Captures := fun _ => None.

Definition setCapture (n : nat) (v : option str) (cap : Captures) : Captures :=
  fun k => if Nat.eqb k n then v else cap k.

(** A match state: the input still ahead, the unit just behind (what
    [^] looks at), the end index and the captures so far. *)
Record MatchState : Type := mkState {
  prev : option char;
  rest : str;
  endIndex : nat;
  captures : Captures
}.

Definition MatchResult := option MatchState.
Definition Continuation := MatchState -> MatchResult.

Definition withCaptures (cap : Captures) (x : MatchState) : MatchState :=
  mkState (prev x) (rest x) (endIndex x) cap.

Fixpoint advanceBy (n : nat) (x : MatchState) : MatchState :=
  match n, rest x with
  | S n', c :: s => advanceBy n' (mkState (Some c) s (S (endIndex x)) (captures x))
  | _, _ => x
  end.

(** CharacterSetMatcher: one unit of the class, then the continuation. *)
Definition charSetMatcher (cls : char -> bool) (x : MatchState) (c : Continuation)
  : MatchResult :=
  match rest x with
  | ch :: s => if cls ch then c (mkState (Some ch) s (S (endIndex x)) (captures x))
               else None
  | [] => None
  end.

(** RepeatMatcher for a greedy quantifier over a character class. *)
Fixpoint repeatMatcher (cls : char -> bool) (min : nat) (max : option nat)
         (s : str) (p : option char) (e : nat) (cap : Captures)
         (c : Continuation) {struct s} : MatchResult :=
  let x := mkState p s e cap in
  match max with
  | Some 0 => c x
  | _ =>
      let z := match s with
               | ch :: s' =>
                   if cls ch
                   then repeatMatcher cls (pred min) (option_map pred max)
                                      s' (Some ch) (S e) cap c
                   else None
               | [] => None
               end in
      match min with
      | S _ => z
      | 0 => match z with Some y => Some y | None => c x end
      end
  end.

(** The capture groups inside a pattern: an iteration of a quantified
    atom starts with them cleared. *)
Fixpoint groupsOf (r : Regex) : list nat :=
  match r with
  | Seq r1 r2 | Alt r1 r2 => groupsOf r1 ++ groupsOf r2
  | Opt r' => groupsOf r'
  | Group n r' => n :: groupsOf r'
  | _ => []
  end.

Definition clearCaptures (ns : list nat) (cap : Captures) : Captures :=
  fold_right (fun n acc => setCapture n None acc) cap ns.

Definition atLineStart (x : MatchState) : bool :=
  match prev x with
  | None => true
  | Some ch => isLineTerminator ch
  end.

(** The matcher of a pattern, in continuation-passing style. *)
Fixpoint matcher (r : Regex) (x : MatchState) (c : Continuation) : MatchResult :=
  match r with
  | Empty => c x
  | Chr ch => charSetMatcher (char_eqb ch) x c
  | Class cls => charSetMatcher cls x c
  | Bol => if atLineStart x then c x else None
  | Eos => match rest x with [] => c x | _ :: _ => None end
  | Seq r1 r2 => matcher r1 x (fun y => matcher r2 y c)
  | Alt r1 r2 =>
      match matcher r1 x c with
      | Some y => Some y
      | None => matcher r2 x c
      end
  | Rep min max cls =>
      repeatMatcher cls min max (rest x) (prev x) (endIndex x) (captures x) c
  | Opt r' =>
      let xr := withCaptures (clearCaptures (groupsOf r') (captures x)) x in
      let d := fun y => if Nat.eqb (endIndex y) (endIndex x) then None else c y in
      match matcher r' xr d with
      | Some y => Some y
      | None => c x
      end
  | Group n r' =>
      matcher r' x (fun y =>
        let text := firstn (endIndex y - endIndex x) (rest x) in
        c (withCaptures (setCapture n (Some text) (captures y)) y))
  | BackRef n =>
      match captures x n with
      | None => c x
      | Some t => if startsWith t (rest x) then c (advanceBy (length t) x) else None
      end
  end.

(** One attempt at the current position. *)
Definition matchHere (r : Regex) (p : option char) (s : str) (i : nat) : MatchResult :=
  matcher r (mkState p s i noCaptures) Some.

(** [RegExpBuiltinExec] without the sticky flag: the first position from
    [i] on at which the pattern matches. *)
Fixpoint exec (r : Regex) (p : option char) (s : str) (i : nat)
  : option (nat * MatchState) :=
  match matchHere r p s i with
  | Some y => Some (i, y)
  | None => match s with
            | [] => None
            | ch :: s' => exec r (Some ch) s' (S i)
            end
  end.

(** What a match array holds: the matched text, its index, the captures. *)
Record MatchArray : Type := mkMatch {
  matched : str;
  index : nat;
  groups : Captures
}.

(** [matchAll] with the global flag.  The walk visits every position;
    [covered] counts the units of the last match still ahead, which no
    later match may start in.  After an empty match the next attempt is
    one unit further on. *)
Fixpoint matchAllFrom (r : Regex) (p : option char) (s : str) (i : nat)
         (covered : nat) {struct s} : list MatchArray :=
  match covered with
  | S k =>
      match s with
      | [] => []
      | ch :: s' => matchAllFrom r (Some ch) s' (S i) k
      end
  | 0 =>
      match matchHere r p s i with
      | Some y =>
          let n := endIndex y - i in
          mkMatch (firstn n s) i (captures y)
          :: match s with
             | [] => []
             | ch :: s' => matchAllFrom r (Some ch) s' (S i) (pred n)
             end
      | None =>
          match s with
          | [] => []
          | ch :: s' => matchAllFrom r (Some ch) s' (S i) 0
          end
      end
  end.

Definition matchAll (r : Regex) (s : str) : list MatchArray :=
  matchAllFrom r None s 0 0.

(** [s.replace(r, t)] with the global flag, for a replacement text
    without [$] patterns: every match gives way to [t]. *)
Fixpoint replaceAllFrom (r : Regex) (t : str) (p : option char) (s : str)
         (i : nat) (covered : nat) {struct s} : str :=
  match covered with
  | S k =>
      match s with
      | [] => []
      | ch :: s' => replaceAllFrom r t (Some ch) s' (S i) k
      end
  | 0 =>
      match matchHere r p s i with
      | Some y =>
          let n := endIndex y - i in
          t ++ match s with
               | [] => []
               | ch :: s' =>
                   match n with
                   | 0 => ch :: replaceAllFrom r t (Some ch) s' (S i) 0
                   | S k => replaceAllFrom r t (Some ch) s' (S i) k
                   end
               end
      | None =>
          match s with
          | [] => []
          | ch :: s' => ch :: replaceAllFrom r t (Some ch) s' (S i) 0
          end
      end
  end.

Definition replaceAll (r : Regex) (s t : str) : str :=
  replaceAllFrom r t None s 0 0.

(** A literal run of units. *)
Fixpoint Lit (s : str) : Regex :=
  match s with
  | [] => Empty
  | [c] => Chr c
  | c :: s' => Seq (Chr c) (Lit s')
  end.

End RegExp.

Import RegExp.

(** ** Errors, console output and the loader's effects *)

(** One constructor per [throw] of the loader, holding what the message
    interpolates, and [HostError] for what a host call throws. *)
Inductive error : Type :=
| HostError (call : str)
| NoSuchInjectFunction (func : str)
| NotAValidFilePath (resourcePath : str)
| FailedToFindFiles (pattern relativeTo : str) (cause : error)
| NoFilesMatched (pattern relativeTo : str)
| FailedToGetContents (getFrom insertInto : str).

Definition message (e : error) : str :=
  match e with
  | HostError call => call
  | NoSuchInjectFunction func =>
      lit "No such inject function found: " ++ func
  | NotAValidFilePath resourcePath =>
      lit "Not a valid file path: " ++ resourcePath
  | FailedToFindFiles pattern relativeTo _ =>
      lit "Failed fo find files matching '" ++ pattern
      ++ lit "' relative to " ++ relativeTo
  | NoFilesMatched pattern relativeTo =>
      lit "No files matched pattern '" ++ pattern
      ++ lit "' relative to " ++ relativeTo
  | FailedToGetContents getFrom insertInto =>
      lit "Failed to get contents from " ++ getFrom
      ++ lit " (relative to " ++ insertInto ++ lit ")"
  end.

(** What the loader does besides computing text: the two [console.log]
    lines, the [console.error] of a failed tag, and [addDependency]. *)
Inductive event : Type :=
| LogInserting (getFrom insertInto : str)
| LogInjecting (count : nat) (imprt resourcePath pattern listing : str)
| LogTagFailed (func resourcePath : str) (index : nat) (cause : error)
| AddDependency (fullpath : str).

(** How a call ends.  [Exhausted] is the model running out of recursion
    depth; no [catch] sees it. *)
Inductive outcome (A : Type) : Type :=
| Returned (a : A)
| Thrown (e : error)
| Exhausted.

Arguments Returned {A} a.
Arguments Thrown {A} e.
Arguments Exhausted {A}.

Module Eff.

(** A computation: the events it emitted, in order, and how it ended. *)
Definition M (A : Type) : Type := list event * outcome A.

Definition ret {A} (a : A) : M A := ([], Returned a).

Definition throw {A} (e : error) : M A := ([], Thrown e).

Definition emit (ev : event) : M unit := ([ev], Returned tt).

Definition bind {A B} (m : M A) (f : A -> M B) : M B :=
  match snd m with
  | Returned a => (fst m ++ fst (f a), snd (f a))
  | Thrown e => (fst m, Thrown e)
  | Exhausted => (fst m, Exhausted)
  end.

(** [try { m } catch (e) { h e }] *)
Definition tryCatch {A} (m : M A) (h : error -> M A) : M A :=
  match snd m with
  | Thrown e => (fst m ++ fst (h e), snd (h e))
  | _ => m
  end.

End Eff.

Import Eff.

Notation "x <- m ;; k" := (bind m (fun x => k))
  (at level 61, m at next level, right associativity).
Notation "m ;;; k" := (bind m (fun _ => k))
  (at level 61, right associativity).

(** ** The host *)

(** Node's [path] functions, [fs.readFileSync] and [cp.execFileSync].
    A read or a child process that throws is [None]. *)
Record Host : Type := mkHost {
  path_resolve : str -> str -> str;
  path_dirname : str -> str;
  path_extname : str -> str;
  fs_readFileSync : str -> option str;
  cp_execFileSync : str -> list str -> option str
}.

(** ** The loader *)

Module Loader.

Definition isTabOrSpace (c : char) : bool := char_eqb c TAB || char_eqb c SPACE.

Definition isLower (c : char) : bool := (97 <=? c)%N && (c <=? 122)%N.

(** Inside a class [\3] is not a back-reference but the unit U+0003. *)
Definition notU0003 (c : char) : bool := negb (char_eqb c 3%N).

Definition seq (rs : list Regex) : Regex := fold_right Seq Empty rs.

(** The tag pattern of line 41, with the flags [m] and [g].  Written
    with [{0,}] for the star and [Q] for the alternative of the double
    and the single quote, it reads
    [/(^[\t ]{0,})?<webpack-([a-z]+) src=(Q)([^\3]+)\3\s{0,}\/?>/]. *)
Definition regexp : Regex :=
  seq [ Opt (Group 1 (Seq Bol (Rep 0 None isTabOrSpace)));
        Lit (lit "<webpack-");
        Group 2 (Rep 1 None isLower);
        Lit (lit " src=");
        Group 3 (Alt (Chr DQUOTE) (Chr SQUOTE));
        Group 4 (Rep 1 None notU0003);
        BackRef 3;
        Rep 0 None isSpace;
        Rep 0 (Some 1) (char_eqb SLASH);
        Chr GT ].

(** [/\.([a-z]{3,4})$/] *)
Definition extensionRegexp : Regex :=
  seq [ Chr DOT; Group 1 (Rep 3 (Some 4) isLower); Eos ].

(** [/^/gm] *)
Definition lineStartRegexp : Regex := Bol.

(** The destructured match: [[wholeTag, whitespace, func, , src]] and
    [match.index].  Groups 2 and 4 take part in every match; group 1
    may be undefined. *)
Record Tag : Type := mkTag {
  wholeTag : str;
  whitespace : option str;
  func : str;
  src : str;
  tagIndex : nat
}.

Definition destructure (m : MatchArray) : Tag :=
  mkTag (matched m) (groups m 1)
        (match groups m 2 with Some t => t | None => [] end)
        (match groups m 4 with Some t => t | None => [] end)
        (index m).

Definition tagsOf (contents : str) : list Tag :=
  map destructure (matchAll regexp contents).

(** [if (whitespace)]: undefined and the empty string are both falsy. *)
Definition truthy (whitespace : option str) : option str :=
  match whitespace with
  | Some (c :: w) => Some (c :: w)
  | _ => None
  end.

(** Lines 58-59.  The whitespace of a match holds tabs and spaces
    only, so as a replacement text it has no [$] pattern. *)
Definition indent (whitespace : option str) (replacement : str) : str :=
  match truthy whitespace with
  | Some w => replaceAll lineStartRegexp replacement w
  | None => replacement
  end.

(** Lines 63-64. *)
Definition splice (contents wholeTag replacement : str) : str :=
  let start := indexOf contents wholeTag in
  slice contents 0 start ++ replacement
  ++ sliceFrom contents (start + Z.of_nat (length wholeTag)).

Definition wrapInCommentSyntax (s resourcePath : str) : M str :=
  match exec extensionRegexp None resourcePath 0 with
  | Some (_, y) =>
      if match captures y 1 with
         | Some ext => Str.eqb ext (lit "html")
         | None => false
         end
      then ret (lit "<!-- " ++ s ++ lit " -->")
      else ret (lit "/* " ++ s ++ lit " */")
  | None => throw (NotAValidFilePath resourcePath)
  end.

Section WithHost.

Variable host : Host.

Definition findMatchingFiles (pattern relativeTo : str) : M (list str) :=
  tryCatch
    (match cp_execFileSync host (lit "find")
             [relativeTo; lit "-type"; lit "-f"; lit "-name"; pattern] with
     | Some out => ret (split LF out)
     | None => throw (HostError (lit "execFileSync"))
     end)
    (fun e => throw (FailedToFindFiles pattern relativeTo e)).

Definition importLine (imprt p : str) : str :=
  imprt ++ lit " " ++ [DQUOTE] ++ p ++ [DQUOTE] ++ lit ";" ++ [LF].

Definition addImportStatements (pattern resourcePath : str) : M str :=
  let relativeTo := path_dirname host resourcePath in
  files <- findMatchingFiles pattern relativeTo ;;
  if Nat.eqb (length files) 0
  then throw (NoFilesMatched pattern relativeTo)
  else
    let imprt :=
      if existsb (Str.eqb (path_extname host resourcePath))
                 [lit "js"; lit "ts"; lit "tsx"; lit "jsx"]
      then lit "import" else lit "@import" in
    let replacement := concat (map (importLine imprt) files) in
    emit (LogInjecting (length files) imprt resourcePath pattern
            (join (LF :: lit "    ") (split LF replacement))) ;;;
    ret replacement.

Definition getFileContents (getFrom insertInto : str) : M str :=
  tryCatch
    (emit (LogInserting getFrom insertInto) ;;;
     let fullpath := path_resolve host insertInto getFrom in
     match fs_readFileSync host fullpath with
     | Some data =>
         let contents := trim data in
         emit (AddDependency fullpath) ;;;
         ret contents
     | None => throw (HostError (lit "readFileSync"))
     end)
    (fun _ => throw (FailedToGetContents getFrom insertInto)).

Definition getInjectorFunc (func : str) : M (str -> str -> M str) :=
  if Str.eqb func (lit "inject") then ret getFileContents
  else if Str.eqb func (lit "import") then ret addImportStatements
  else throw (NoSuchInjectFunction func).

(** The body of the [try] of lines 46-51, with the recursive call
    left open. *)
Definition resolveTag (recur : str -> str -> M str) (t : Tag) (resourcePath : str)
  : M str :=
  f <- getInjectorFunc (func t) ;;
  replacement <- f (src t) resourcePath ;;
  recur replacement (src t).

(** Lines 46-55: the [try] and its [catch]. *)
Definition replacementOf (recur : str -> str -> M str) (t : Tag) (resourcePath : str)
  : M str :=
  tryCatch (resolveTag recur t resourcePath)
    (fun e =>
       emit (LogTagFailed (func t) resourcePath (tagIndex t) e) ;;;
       wrapInCommentSyntax (wholeTag t) resourcePath).

(** The [for] loop of lines 44-66 over the matches still to process. *)
Fixpoint forMatches (recur : str -> str -> M str) (matches : list Tag)
         (contents resourcePath : str) : M str :=
  match matches with
  | [] => ret contents
  | t :: matches' =>
      replacement <- replacementOf recur t resourcePath ;;
      forMatches recur matches'
        (splice contents (wholeTag t) (indent (whitespace t) replacement))
        resourcePath
  end.

(** [parseAndReplace]; [depth] bounds the nesting of its recursion. *)
Fixpoint parseAndReplace (depth : nat) (contents resourcePath : str) : M str :=
  match depth with
  | 0 => ([], Exhausted)
  | S d => forMatches (parseAndReplace d) (tagsOf contents) contents resourcePath
  end.

(** [HtmlInjectorLoader]: what the callback receives. *)
Definition HtmlInjectorLoader (depth : nat) (source resourcePath : str) : M str :=
  parseAndReplace depth source resourcePath.

End WithHost.

End Loader.

Import Loader.

(** ** A host to run the loader on

    Node's [path] module for POSIX paths, a file system given as a
    table of paths and contents, and a [find] that checks its
    expression and then answers from a table of outputs.  The theorems
    below that hold of every host do not depend on it; it is the host
    of the worked examples. *)

Module Posix.

Definition isAbsolute (p : str) : bool :=
  match p with
  | c :: _ => char_eqb c SLASH
  | [] => false
  end.

(** The segments of a path, with [.] and empty segments dropped and
    [..] taking back the segment before it, last segment first. *)
Fixpoint normalizeSegments (segs acc : list str) : list str :=
  match segs with
  | [] => acc
  | s :: segs' =>
      if Str.eqb s [] || Str.eqb s (lit ".") then normalizeSegments segs' acc
      else if Str.eqb s (lit "..") then normalizeSegments segs' (tl acc)
      else normalizeSegments segs' (s :: acc)
  end.

(** [path.resolve(from, to)] in the working directory [cwd]. *)
Definition resolve (cwd from to : str) : str :=
  let joined :=
    if isAbsolute to then to
    else if isAbsolute from then from ++ [SLASH] ++ to
    else cwd ++ [SLASH] ++ from ++ [SLASH] ++ to in
  SLASH :: join [SLASH] (rev (normalizeSegments (split SLASH joined) [])).

(** The loop of [path.dirname]: from the right, the index of the first
    slash that has a unit other than a slash to its right. *)
Fixpoint dirnameEnd (fromRight : str) (i : nat) (matchedSlash : bool) : option nat :=
  match fromRight with
  | [] => None
  | c :: cs =>
      if char_eqb c SLASH
      then if matchedSlash then dirnameEnd cs (pred i) matchedSlash else Some i
      else dirnameEnd cs (pred i) false
  end.

Definition dirname (p : str) : str :=
  match p with
  | [] => lit "."
  | c0 :: p' =>
      let hasRoot := char_eqb c0 SLASH in
      match dirnameEnd (rev p') (length p') true with
      | None => if hasRoot then lit "/" else lit "."
      | Some e => if hasRoot && Nat.eqb e 1 then lit "//" else firstn e p
      end
  end.

(** [path.basename(p)]: what follows the last slash, trailing slashes
    apart. *)
Definition lastSegment (p : str) : str :=
  let trimmed := rev (let fix drop (r : str) : str :=
                        match r with
                        | c :: r' => if char_eqb c SLASH then drop r' else r
                        | [] => []
                        end in drop (rev p)) in
  last (split SLASH trimmed) [].

Fixpoint lastDot (s : str) (i : nat) : option nat :=
  match s with
  | [] => None
  | c :: s' =>
      match lastDot s' (S i) with
      | Some j => Some j
      | None => if char_eqb c DOT then Some i else None
      end
  end.

(** [path.extname(p)]: from the last dot of the last segment on, the
    dot included; empty when there is no dot, when the only dot leads
    the segment, and for the segment [..]. *)
Definition extname (p : str) : str :=
  let base := lastSegment p in
  match lastDot base 0 with
  | None | Some 0 => []
  | Some (S j) => if Str.eqb base (lit "..") then [] else skipn (S j) base
  end.

Fixpoint lookup {A} (eqb : A -> A -> bool) (table : list (A * str)) (k : A)
  : option str :=
  match table with
  | [] => None
  | (k', v) :: table' => if eqb k k' then Some v else lookup eqb table' k
  end.

Fixpoint args_eqb (a b : list str) : bool :=
  match a, b with
  | [], [] => true
  | x :: a', y :: b' => Str.eqb x y && args_eqb a' b'
  | _, _ => false
  end.

(** The letters [find] takes after [-type]. *)
Definition isFileType (t : str) : bool :=
  existsb (Str.eqb t)
    [lit "b"; lit "c"; lit "d"; lit "f"; lit "l"; lit "p"; lit "s"].

(** [find] reads its expression before it looks at any file: [-type]
    takes one of the file-type letters and [-name] takes a pattern.  On
    another word after [-type], or on none, it writes a diagnostic and
    exits with a status other than 0. *)
Fixpoint wellFormedExpression (expr : list str) : bool :=
  match expr with
  | [] => true
  | word :: expr' =>
      if Str.eqb word (lit "-type") then
        match expr' with
        | [] => false
        | t :: expr'' => isFileType t && wellFormedExpression expr''
        end
      else if Str.eqb word (lit "-name") then
        match expr' with
        | [] => false
        | _ :: expr'' => wellFormedExpression expr''
        end
      else wellFormedExpression expr'
  end.

(** [find start expr...]: an error for an expression that is not well
    formed; otherwise what the table [found] has for the argument list,
    and an error when it has nothing. *)
Definition find (found : list (list str * str)) (args : list str) : option str :=
  match args with
  | [] => None
  | _ :: expr => if wellFormedExpression expr then lookup args_eqb found args else None
  end.

(** The host over the files [files], with [find] as the one program it
    can run. *)
Definition host (cwd : str) (files : list (str * str))
           (found : list (list str * str)) : Host :=
  mkHost (resolve cwd) dirname extname
         (lookup Str.eqb files)
         (fun cmd args => if Str.eqb cmd (lit "find") then find found args else None).

End Posix.


(** * The vocabulary of the properties *)

Unset Implicit Arguments.

(** ** What a pattern matches

    [Matches r x y]: the pattern [r] can take the matcher from the state
    [x] to the state [y].  The relation leaves out the order in which
    the matcher tries its choices; every success of the matcher is one
    of its pairs. *)

Inductive Matches : Regex -> MatchState -> MatchState -> Prop :=
| MEmpty x : Matches Empty x x
| MChr ch p s e cap :
    Matches (Chr ch) (mkState p (ch :: s) e cap) (mkState (Some ch) s (S e) cap)
| MClass cls ch p s e cap :
    cls ch = true ->
    Matches (Class cls) (mkState p (ch :: s) e cap) (mkState (Some ch) s (S e) cap)
| MBol x : atLineStart x = true -> Matches Bol x x
| MEos x : rest x = [] -> Matches Eos x x
| MSeq r1 r2 x y z :
    Matches r1 x y -> Matches r2 y z -> Matches (Seq r1 r2) x z
| MAltL r1 r2 x y : Matches r1 x y -> Matches (Alt r1 r2) x y
| MAltR r1 r2 x y : Matches r2 x y -> Matches (Alt r1 r2) x y
| MRep cls min max run p p' s e cap :
    forallb cls run = true -> min <= length run ->
    (forall m, max = Some m -> length run <= m) ->
    Matches (Rep min max cls) (mkState p (run ++ s) e cap)
            (mkState p' s (e + length run) cap)
| MOptSkip r x : Matches (Opt r) x x
| MOptTake r x y :
    Matches r (withCaptures (clearCaptures (groupsOf r) (captures x)) x) y ->
    endIndex y <> endIndex x ->
    Matches (Opt r) x y
| MGroup n r x y :
    Matches r x y ->
    Matches (Group n r) x
      (withCaptures
         (setCapture n (Some (firstn (endIndex y - endIndex x) (rest x)))
                     (captures y)) y)
| MBackRefNone n x : captures x n = None -> Matches (BackRef n) x x
| MBackRef n t x :
    captures x n = Some t -> startsWith t (rest x) = true ->
    Matches (BackRef n) x (advanceBy (length t) x).

(** A quantifier [{min,max}] is written with [min <= max]. *)
Fixpoint wellFormed (r : Regex) : bool :=
  match r with
  | Seq r1 r2 | Alt r1 r2 => wellFormed r1 && wellFormed r2
  | Opt r' | Group _ r' => wellFormed r'
  | Rep min (Some max) _ => Nat.leb min max
  | _ => true
  end.

(** [x] runs to [y] over the units [run]. *)
Definition consumes (x : MatchState) (run : str) (y : MatchState) : Prop :=
  rest x = run ++ rest y /\ endIndex y = endIndex x + length run.

(** Group 1 of the tag pattern, and the pattern after it. *)
Definition leading : Regex := Group 1 (Seq Bol (Rep 0 None isTabOrSpace)).

Definition tagBody : Regex :=
  seq [ Lit (lit "<webpack-");
        Group 2 (Rep 1 None isLower);
        Lit (lit " src=");
        Group 3 (Alt (Chr DQUOTE) (Chr SQUOTE));
        Group 4 (Rep 1 None notU0003);
        BackRef 3;
        Rep 0 None isSpace;
        Rep 0 (Some 1) (char_eqb SLASH);
        Chr GT ].

(** The text of a tag: verb [f], quote [q], path argument [a], the
    white space [sp] and the optional slash [sl] before the closing
    bracket. *)
Definition bodyText (f : str) (q : char) (a sp sl : str) : str :=
  lit "<webpack-" ++ f ++ lit " src=" ++ [q] ++ a ++ [q] ++ sp ++ sl ++ [GT].

(** The unit before the position that follows [before]. *)
Definition unitBefore (p : option char) (before : str) : option char :=
  last (map Some before) p.

(** The position [i] starts a line of [contents]. *)
Definition startsLine (contents : str) (i : nat) : Prop :=
  i = 0 \/ exists c, nth_error contents (pred i) = Some c /\ isLineTerminator c = true.

(** [occurIn ts s]: the texts [ts] occur in [s] one after the other,
    without overlap. *)
Inductive occurIn : list str -> str -> Prop :=
| occurIn_nil s : occurIn [] s
| occurIn_cons t ts before after :
    occurIn ts after -> occurIn (t :: ts) (before ++ t ++ after).

(** [reaches contents ms doc]: the loop started on [contents] can stand
    before the matches [ms] with the document [doc], whatever the
    replacements spliced so far were. *)
Inductive reaches (contents : str) : list Tag -> str -> Prop :=
| reaches_start : reaches contents (tagsOf contents) contents
| reaches_splice t ms doc replacement :
    reaches contents (t :: ms) doc ->
    reaches contents ms (splice doc (wholeTag t) replacement).

(** The lines of a text, each with the line terminator that ends it;
    the last line has none (and may be empty). *)
Fixpoint linesOf (s : str) : list str :=
  match s with
  | [] => [[]]
  | c :: s' =>
      if isLineTerminator c then [c] :: linesOf s'
      else (c :: hd [] (linesOf s')) :: tl (linesOf s')
  end.

(** [w] put in after every line terminator. *)
Fixpoint afterTerminators (w s : str) : str :=
  match s with
  | [] => []
  | c :: s' => c :: (if isLineTerminator c then w else []) ++ afterTerminators w s'
  end.

(** Three or four lower-case letters. *)
Definition isExtension (ext : str) : bool :=
  (3 <=? length ext) && (length ext <=? 4) && forallb isLower ext.

(** The path ends in a dot and three or four lower-case letters. *)
Definition extensionLike (resourcePath : str) : Prop :=
  exists stem ext, resourcePath = stem ++ DOT :: ext /\ isExtension ext = true.

(** ** Worked inputs *)

Module Examples.

(** A host without files, whose [find] exits in error. *)
Definition bare : Host := Posix.host (lit "/repo") [] [].

(** The README's layout: [src/index.html] beside [src/nav.html]. *)
Definition readme : Host :=
  Posix.host (lit "/repo")
    [(lit "/repo/src/index.html", lit "<webpack-inject src='./nav.html' />");
     (lit "/repo/src/nav.html", lit "<div>Home</div>" ++ [LF])]
    [].

Definition readmeTag : str := lit "<webpack-inject src='./nav.html' />".

Definition indexHtml : str := lit "/repo/src/index.html".

Definition importLess : str := lit "<webpack-import src='*.less'>".

Definition mainLess : str := lit "/repo/src/main.less".

(** A directory of scripts: [index.js] imports the others. *)
Definition scripts : Host :=
  Posix.host (lit "/repo")
    [(lit "/repo/src/index.js", lit "<webpack-import src='*.js'>");
     (lit "/repo/src/a.js", lit "export const a = 1;" ++ [LF]);
     (lit "/repo/src/b.js", lit "export const b = 2;" ++ [LF])]
    [].

Definition importJs : str := lit "<webpack-import src='*.js'>".

Definition indexJs : str := lit "/repo/src/index.js".

Definition injectPage : str := lit "<webpack-inject src='/repo/page.html'>".

(** Files whose texts join into a tag: [head.html] ends in the start
    of a tag and injects [tail.html], which holds the rest of it. *)
Definition joined : Host :=
  Posix.host (lit "/repo")
    [(lit "/repo/head.html", lit "<webpack-<webpack-inject src='/repo/tail.html'>");
     (lit "/repo/tail.html", lit "inject src='/repo/leaf.html'>");
     (lit "/repo/leaf.html", lit "hello")]
    [].


(** A tag with a verb the loader does not know. *)
Definition unknownVerb : str := lit "<webpack-foo src='x'>".

Definition unknownVerbTag : Tag :=
  mkTag unknownVerb None (lit "foo") (lit "x") 0.

Definition makefile : str := lit "/repo/src/Makefile".

(** An indented tag between two lines. *)
Definition indented : str :=
  lit "<body>" ++ [LF] ++ lit "  <webpack-inject src='/repo/nav.html' />"
  ++ [LF] ++ lit "</body>".

Definition indentedTag : Tag :=
  mkTag (lit "  <webpack-inject src='/repo/nav.html' />") (Some (lit "  "))
        (lit "inject") (lit "/repo/nav.html") 7.

Definition navbar : Host :=
  Posix.host (lit "/repo")
    [(lit "/repo/nav.html",
      lit "<div id='navbar'>" ++ [LF] ++ lit "  <div>Home</div>" ++ [LF]
      ++ lit "</div>" ++ [LF])]
    [].

End Examples.

(** ** The vocabulary of the further properties *)




(** No white space or line terminator at either end. *)
Definition trimmed (s : str) : Prop :=
  match s with [] => True | c :: _ => isSpace c = false end
  /\ match rev s with [] => True | c :: _ => isSpace c = false end.

(** The text does not hold the unit [c]. *)
Definition lacks (c : char) (s : str) : bool :=
  forallb (fun d => negb (char_eqb d c)) s.

(** The position after [before] starts a line. *)
Definition lineStartAfter (before : str) : Prop :=
  before = [] \/ exists b c, before = b ++ [c] /\ isLineTerminator c = true.

(** The whitespace group of a match over the leading run [w]. *)
Definition groupOf (w : str) : option str :=
  match w with [] => None | _ :: _ => Some w end.

(** The text [s] does not go on with a unit of the class. *)
Definition stopsAt (cls : char -> bool) (s : str) : Prop :=
  match s with [] => True | ch :: _ => cls ch = false end.

(** The tag pattern from the closing quote on. *)
Definition closing : Regex :=
  seq [ BackRef 3; Rep 0 None isSpace; Rep 0 (Some 1) (char_eqb SLASH); Chr GT ].

(** The state the matcher is in after the units [run]. *)
Definition after (run : str) (p : option char) (s : str) (e : nat) (cap : Captures)
  : MatchState :=
  mkState (unitBefore p run) s (e + length run) cap.

(** The tag pattern from the path argument, the opening quote, the
    attribute and the verb on. *)
Definition pathPart : Regex := Seq (Group 4 (Rep 1 None notU0003)) closing.

Definition quotePart : Regex :=
  Seq (Group 3 (Alt (Chr DQUOTE) (Chr SQUOTE))) pathPart.

Definition srcPart : Regex := Seq (Lit (lit " src=")) quotePart.

Definition verbPart : Regex := Seq (Group 2 (Rep 1 None isLower)) srcPart.

(** A tag on a line of its own: the text before it holds no
    [<webpack-] and ends a line or is empty; the tag is a run [w] of
    tabs and spaces, a verb [f] of lower-case letters, a quote [q], a
    path argument [a] without U+0003, the quote again, white space
    [sp], an optional slash [sl] and the bracket; the text after it
    holds no quote of the kind and no [<webpack-]. *)
Definition onItsLine (pre w f : str) (q : char) (a sp sl post : str) : Prop :=
  indexOf pre (lit "<webpack-") = (-1)%Z
  /\ lineStartAfter pre
  /\ forallb isTabOrSpace w = true
  /\ f <> [] /\ forallb isLower f = true
  /\ (q = DQUOTE \/ q = SQUOTE)
  /\ a <> [] /\ forallb notU0003 a = true
  /\ forallb isSpace sp = true /\ (sl = [] \/ sl = [SLASH])
  /\ lacks q post = true
  /\ indexOf post (lit "<webpack-") = (-1)%Z.

(** The word line 143 chooses, and the statements of line 145. *)
Definition importWord (host : Host) (resourcePath : str) : str :=
  if existsb (Str.eqb (path_extname host resourcePath))
             [lit "js"; lit "ts"; lit "tsx"; lit "jsx"]
  then lit "import" else lit "@import".

(** What every [find] does with the word after [-type]: the word is a
    file-type letter (or, for some, a list of them), never a word that
    starts with a hyphen; on such a word [find] writes a diagnostic and
    exits with a status other than 0, and [execFileSync] throws. *)
Definition findChecksType (host : Host) : Prop :=
  forall start t expr,
    cp_execFileSync host (lit "find") (start :: lit "-type" :: (lit "-" ++ t) :: expr)
    = None.

(** A log in which a dependency stands only right after the console
    line of the inject verb, for the path that line's arguments resolve
    to, a path the host reads.  [prev] is the event before the log. *)
Fixpoint recordedAfterRead (host : Host) (prev : option event) (log : list event)
  : Prop :=
  match log with
  | [] => True
  | ev :: log' =>
      match ev with
      | AddDependency fullpath =>
          match prev with
          | Some (LogInserting getFrom insertInto) =>
              fullpath = path_resolve host insertInto getFrom
              /\ fs_readFileSync host fullpath <> None
          | _ => False
          end
      | _ => True
      end
      /\ recordedAfterRead host (Some ev) log'
  end.

(** An event other than a dependency. *)
Definition recordsNothing (ev : event) : Prop :=
  match ev with
  | AddDependency _ => False
  | _ => True
  end.


Module MoreExamples.



Definition bodyBefore : str := lit "<body>" ++ [LF].

Definition bodyAfter : str := [LF] ++ lit "</body>".

(** A page that injects a part, on a line of its own. *)
Definition partTag : str := lit "<webpack-inject src='/repo/part.html'>".

Definition pageText : str :=
  lit "<main>" ++ [LF] ++ lit "  " ++ partTag ++ [LF] ++ lit "</main>".

Definition partText : str := lit "hello" ++ [LF] ++ lit "world".

Definition pages : Host :=
  Posix.host (lit "/repo")
    [(lit "/repo/page.html", pageText ++ [LF]);
     (lit "/repo/part.html", partText ++ [LF])]
    [].


(** An import tag above an inject tag, in quotes of the other kind. *)
Definition navTag : str :=
  lit "<webpack-inject src=" ++ [DQUOTE] ++ lit "/repo/nav.html" ++ [DQUOTE] ++ lit ">".

Definition lessAndNav : str := Examples.importLess ++ [LF] ++ navTag.

Definition importLessTag : Tag :=
  mkTag Examples.importLess None (lit "import") (lit "*.less") 0.

Definition injectNavTag : Tag :=
  mkTag navTag None (lit "inject") (lit "/repo/nav.html") 30.

End MoreExamples.

(** * Properties *)

(** ** Strings *)

Lemma char_eqb_eq (a b : char) : char_eqb a b = true <-> a = b.
Proof. unfold char_eqb. apply N.eqb_eq. Qed.

Lemma char_eqb_refl (a : char) : char_eqb a a = true.
Proof. apply char_eqb_eq. reflexivity. Qed.

Lemma str_eqb_eq (s t : str) : Str.eqb s t = true <-> s = t.
Proof.
  revert t. induction s as [|a s IH]; intros [|b t]; simpl; split; intro H;
    try reflexivity; try discriminate.
  - apply andb_true_iff in H as [Hab Hst].
    apply char_eqb_eq in Hab. apply IH in Hst. congruence.
  - injection H as -> ->. rewrite char_eqb_refl. apply IH. reflexivity.
Qed.

Lemma str_eqb_refl (s : str) : Str.eqb s s = true.
Proof. apply str_eqb_eq. reflexivity. Qed.

Lemma startsWith_app (t u : str) : startsWith t (t ++ u) = true.
Proof.
  induction t as [|a t IH]; simpl; [reflexivity|].
  rewrite char_eqb_refl. exact IH.
Qed.

Lemma startsWith_inv (t s : str) :
  startsWith t s = true -> s = t ++ skipn (length t) s.
Proof.
  revert s. induction t as [|a t IH]; intros s H; simpl in *.
  - reflexivity.
  - destruct s as [|b s]; [discriminate|].
    apply andb_true_iff in H as [Hab Hts].
    apply char_eqb_eq in Hab. subst b. simpl. f_equal. apply IH. exact Hts.
Qed.

Lemma startsWith_length (t s : str) :
  startsWith t s = true -> length t <= length s.
Proof.
  intro H. apply startsWith_inv in H.
  apply (f_equal (@length char)) in H. rewrite length_app in H. lia.
Qed.

(** [indexOf] is either -1 or an index into the string. *)
Lemma indexOf_range (s t : str) :
  indexOf s t = (-1)%Z \/ (0 <= indexOf s t <= Z.of_nat (length s))%Z.
Proof.
  induction s as [|a s IH]; simpl.
  - destruct (startsWith t []); [right; lia | left; reflexivity].
  - destruct (startsWith t (a :: s)); [right; lia|].
    destruct (Z.ltb_spec (indexOf s t) 0); [left; reflexivity | right; lia].
Qed.

(** At a non-negative result the text occurs, and nowhere before. *)
Lemma indexOf_first (s t : str) (i : nat) :
  indexOf s t = Z.of_nat i ->
  startsWith t (skipn i s) = true /\
  forall k, k < i -> startsWith t (skipn k s) = false.
Proof.
  revert i. induction s as [|a s IH]; intros i H; simpl in H.
  - destruct (startsWith t []) eqn:E; [|lia].
    assert (i = 0) by lia. subst i. split; [exact E | intros k Hk; lia].
  - destruct (startsWith t (a :: s)) eqn:E.
    + assert (i = 0) by lia. subst i. split; [exact E | intros k Hk; lia].
    + destruct (Z.ltb_spec (indexOf s t) 0) as [Hneg|Hpos]; [lia|].
      destruct i as [|i]; [lia|].
      destruct (IH i ltac:(lia)) as [Hat Hbefore].
      split; [exact Hat|].
      intros [|k] Hk; simpl; [exact E | apply Hbefore; lia].
Qed.

(** A text that occurs is found, at its place or earlier. *)
Lemma indexOf_occurs (a t b : str) :
  exists i, i <= length a /\ indexOf (a ++ t ++ b) t = Z.of_nat i.
Proof.
  induction a as [|c a IH]; simpl.
  - exists 0. split; [lia|].
    destruct (t ++ b) as [|c s] eqn:E; simpl.
    + destruct t; [reflexivity | discriminate].
    + rewrite <- E, startsWith_app. reflexivity.
  - destruct IH as (i & Hi & Hidx).
    destruct (startsWith t (c :: a ++ t ++ b)).
    + exists 0. split; [lia | reflexivity].
    + exists (S i). split; [lia|]. rewrite Hidx.
      destruct (Z.ltb_spec (Z.of_nat i) 0); lia.
Qed.

Lemma clampIndex_of_nat (len i : nat) :
  i <= len -> clampIndex len (Z.of_nat i) = i.
Proof.
  intro H. unfold clampIndex.
  destruct (Z.ltb_spec (Z.of_nat i) 0); [lia|].
  rewrite Nat2Z.id. lia.
Qed.

Lemma slice_prefix (s : str) (i : nat) :
  i <= length s -> slice s 0 (Z.of_nat i) = firstn i s.
Proof.
  intro H. unfold slice. rewrite clampIndex_of_nat by exact H.
  change (clampIndex (length s) 0) with 0. simpl. f_equal. lia.
Qed.

Lemma sliceFrom_suffix (s : str) (i : nat) :
  i <= length s -> sliceFrom s (Z.of_nat i) = skipn i s.
Proof. intro H. unfold sliceFrom. rewrite clampIndex_of_nat by exact H. reflexivity. Qed.

(** The splice of lines 63-64 when the tag text is found at [i]. *)
Lemma splice_at (contents tag replacement : str) (i : nat) :
  indexOf contents tag = Z.of_nat i ->
  contents = firstn i contents ++ tag ++ skipn (i + length tag) contents /\
  splice contents tag replacement
  = firstn i contents ++ replacement ++ skipn (i + length tag) contents.
Proof.
  intro H.
  destruct (indexOf_first _ _ _ H) as [Hat _].
  assert (Hlen : i + length tag <= length contents).
  { apply startsWith_length in Hat. rewrite length_skipn in Hat.
    destruct (indexOf_range contents tag); lia. }
  split.
  - apply startsWith_inv in Hat. rewrite skipn_skipn in Hat.
    rewrite <- (firstn_skipn i contents) at 1. f_equal.
    rewrite Nat.add_comm in Hat. exact Hat.
  - unfold splice. rewrite H. rewrite slice_prefix by lia.
    rewrite <- Nat2Z.inj_add. rewrite sliceFrom_suffix by lia. reflexivity.
Qed.

(** ** The matcher: what a successful match has consumed

    The matcher runs in continuation-passing style, so what it has
    consumed is read off a success: the continuation was entered, and
    in which state. *)

Section MatcherInversion.

Variable c : Continuation.
Variable z : MatchState.

Lemma charSetMatcher_inv cls p s e cap :
  charSetMatcher cls (mkState p s e cap) c = Some z ->
  exists ch s', s = ch :: s' /\ cls ch = true
                /\ c (mkState (Some ch) s' (S e) cap) = Some z.
Proof.
  unfold charSetMatcher. simpl. destruct s as [|ch s']; [discriminate|].
  destruct (cls ch) eqn:E; [|discriminate].
  intro H. exists ch, s'. auto.
Qed.

Lemma repeatMatcher_inv cls s :
  forall min max p e cap,
  (forall m, max = Some m -> min <= m) ->
  repeatMatcher cls min max s p e cap c = Some z ->
  exists run s' p',
    s = run ++ s' /\ forallb cls run = true /\ min <= length run
    /\ (forall m, max = Some m -> length run <= m)
    /\ c (mkState p' s' (e + length run) cap) = Some z.
Proof.
  assert (Hstop : forall s0 min max p e cap,
             (forall m, max = Some m -> min <= m) ->
             min = 0 -> c (mkState p s0 e cap) = Some z ->
             exists run s' p',
               s0 = run ++ s' /\ forallb cls run = true /\ min <= length run
               /\ (forall m, max = Some m -> length run <= m)
               /\ c (mkState p' s' (e + length run) cap) = Some z).
  { intros s0 min max p e cap _ -> Hc. exists [], s0, p. simpl.
    rewrite Nat.add_0_r. repeat split; auto. intros m _. lia. }
  induction s as [|ch s IH]; intros min max p e cap Hwf H.
  - assert (Hnil : min = 0 /\ c (mkState p [] e cap) = Some z).
    { simpl in H. destruct max as [[|m]|]; destruct min; auto; try discriminate.
      specialize (Hwf 0 eq_refl). lia. }
    destruct Hnil as [Hmin Hc]. apply (Hstop [] min max p e cap); auto.
  - assert (Hcases :
      (min = 0 /\ c (mkState p (ch :: s) e cap) = Some z)
      \/ (max <> Some 0 /\ cls ch = true
          /\ repeatMatcher cls (pred min) (option_map pred max) s (Some ch) (S e) cap c
             = Some z)).
    { simpl in H. destruct max as [[|m]|].
      - left. split; [specialize (Hwf 0 eq_refl); lia | exact H].
      - destruct (cls ch); destruct min; try discriminate;
          try (right; repeat split; [discriminate | exact H]).
        + destruct (repeatMatcher cls _ _ s _ _ _ c) eqn:E.
          * right. repeat split; [discriminate | congruence].
          * left. auto.
        + left. auto.
      - destruct (cls ch); destruct min; try discriminate;
          try (right; repeat split; [discriminate | exact H]).
        + destruct (repeatMatcher cls _ _ s _ _ _ c) eqn:E.
          * right. repeat split; [discriminate | congruence].
          * left. auto.
        + left. auto. }
    destruct Hcases as [[Hmin Hc] | (Hmax & Hcls & Hrec)];
      [apply (Hstop (ch :: s) min max p e cap); auto|].
    apply IH in Hrec.
    + destruct Hrec as (run & s' & p' & -> & Hall & Hlen & Hbound & Hc).
      exists (ch :: run), s', p'. simpl. rewrite Hcls, Hall.
      replace (e + S (length run)) with (S e + length run) by lia.
      repeat split; auto; [lia|].
      intros m ->. destruct m as [|m]; [congruence|].
      specialize (Hbound m eq_refl). lia.
    + intros m Hm. destruct max as [k|]; [|discriminate].
      simpl in Hm. injection Hm as <-. specialize (Hwf k eq_refl). lia.
Qed.

End MatcherInversion.

Lemma matcher_sound (r : Regex) :
  wellFormed r = true ->
  forall x c z, matcher r x c = Some z ->
  exists y, Matches r x y /\ c y = Some z.
Proof.
  induction r as [ |ch|cls| | |r1 IH1 r2 IH2|r1 IH1 r2 IH2|min max cls|r IH|n r IH|n];
    intros Hwf x c z H; simpl in H.
  - exists x. split; [constructor | exact H].
  - destruct x as [p s e cap].
    apply charSetMatcher_inv in H as (ch' & s' & -> & Heq & Hc).
    apply char_eqb_eq in Heq. subst ch'. eexists. split; [constructor | exact Hc].
  - destruct x as [p s e cap].
    apply charSetMatcher_inv in H as (ch' & s' & -> & Hcls & Hc).
    eexists. split; [constructor; exact Hcls | exact Hc].
  - destruct (atLineStart x) eqn:E; [|discriminate].
    exists x. split; [constructor; exact E | exact H].
  - destruct (rest x) eqn:E; [|discriminate].
    exists x. split; [constructor; exact E | exact H].
  - simpl in Hwf. apply andb_true_iff in Hwf as [Hwf1 Hwf2].
    apply (IH1 Hwf1) in H as (y & Hxy & H).
    apply (IH2 Hwf2) in H as (y' & Hyy' & H).
    exists y'. split; [econstructor; eassumption | exact H].
  - simpl in Hwf. apply andb_true_iff in Hwf as [Hwf1 Hwf2].
    destruct (matcher r1 x c) eqn:E.
    + injection H as ->. apply (IH1 Hwf1) in E as (y & Hxy & E).
      exists y. split; [apply MAltL; exact Hxy | exact E].
    + apply (IH2 Hwf2) in H as (y & Hxy & H).
      exists y. split; [apply MAltR; exact Hxy | exact H].
  - destruct x as [p s e cap]. simpl in H.
    apply repeatMatcher_inv in H as (run & s' & p' & -> & Hall & Hmin & Hmax & Hc).
    + eexists. split; [constructor; eassumption | exact Hc].
    + intros m ->. simpl in Hwf. apply Nat.leb_le. exact Hwf.
  - simpl in Hwf.
    destruct (matcher r _ _) eqn:E.
    + injection H as ->. apply (IH Hwf) in E as (y & Hxy & E).
      destruct (Nat.eqb_spec (endIndex y) (endIndex x)) as [|Hne]; [discriminate|].
      exists y. split; [apply MOptTake; assumption | exact E].
    + exists x. split; [constructor | exact H].
  - simpl in Hwf. apply (IH Hwf) in H as (y & Hxy & H).
    eexists. split; [apply MGroup; exact Hxy | exact H].
  - destruct (captures x n) as [t|] eqn:E.
    + destruct (startsWith t (rest x)) eqn:Et; [|discriminate].
      eexists. split; [eapply MBackRef; eassumption | exact H].
    + exists x. split; [apply MBackRefNone; exact E | exact H].
Qed.

Lemma advanceBy_startsWith (t : str) :
  forall x, startsWith t (rest x) = true ->
  rest x = t ++ rest (advanceBy (length t) x)
  /\ endIndex (advanceBy (length t) x) = endIndex x + length t
  /\ captures (advanceBy (length t) x) = captures x.
Proof.
  induction t as [|a t IH]; intros [p s e cap] H; simpl in *.
  - auto.
  - destruct s as [|b s]; [discriminate|].
    apply andb_true_iff in H as [Hab Ht]. apply char_eqb_eq in Hab. subst b.
    destruct (IH (mkState (Some a) s (S e) cap) Ht) as (Hr & He & Hc).
    simpl in Hr, He, Hc. rewrite He, Hc. repeat split; [f_equal; exact Hr | lia].
Qed.

Lemma consumes_nil x : consumes x [] x.
Proof. split; simpl; auto. Qed.

Lemma consumes_trans x y z r1 r2 :
  consumes x r1 y -> consumes y r2 z -> consumes x (r1 ++ r2) z.
Proof.
  intros [H1 E1] [H2 E2]. split.
  - rewrite H1, H2. apply app_assoc.
  - rewrite E2, E1, length_app. lia.
Qed.

Lemma Matches_consumes r x y :
  Matches r x y -> exists run, consumes x run y.
Proof.
  induction 1 as [x|ch p s e cap|cls ch p s e cap _|x _|x _
                  |r1 r2 x y z _ [u1 IH1] _ [u2 IH2]|r1 r2 x y _ IH|r1 r2 x y _ IH
                  |cls min max run p p' s e cap _ _ _|r x
                  |r x y _ [u IH] _|n r x y _ [u IH]|n x _|n t x _ Ht];
    try (exists []; apply consumes_nil).
  - exists [ch]. split; simpl; auto. lia.
  - exists [ch]. split; simpl; auto. lia.
  - exists (u1 ++ u2). eapply consumes_trans; eassumption.
  - exact IH.
  - exact IH.
  - exists run. split; simpl; auto.
  - exists u. exact IH.
  - exists u. exact IH.
  - exists t. destruct (advanceBy_startsWith t x Ht) as (Hr & He & _).
    split; assumption.
Qed.

Lemma consumes_inj x y r1 r2 : consumes x r1 y -> consumes x r2 y -> r1 = r2.
Proof.
  intros [H1 _] [H2 _]. rewrite H1 in H2. apply app_inv_tail in H2. exact H2.
Qed.

(** A group captures what its pattern ran over. *)
Lemma consumes_firstn x run y :
  consumes x run y -> firstn (endIndex y - endIndex x) (rest x) = run.
Proof.
  intros [Hr He]. rewrite Hr, He.
  replace (endIndex x + length run - endIndex x) with (length run + 0) by lia.
  rewrite firstn_app_2. simpl. apply app_nil_r.
Qed.

Lemma Matches_Lit (t : str) :
  forall x y, Matches (Lit t) x y -> consumes x t y /\ captures y = captures x.
Proof.
  induction t as [|a t IH]; intros x y H.
  - inversion H; subst. split; [apply consumes_nil | reflexivity].
  - destruct t as [|b t].
    + inversion H; subst. split; [split; simpl; auto; lia | reflexivity].
    + change (Lit (a :: b :: t)) with (Seq (Chr a) (Lit (b :: t))) in H.
      inversion H as [| | | | |r1 r2 x0 y0 z0 H1 H2| | | | | | | | ]; subst.
      apply IH in H2 as [Hc2 Hcap2]. inversion H1; subst.
      split; [|exact Hcap2].
      apply (consumes_trans _ _ _ [a] (b :: t)) with (2 := Hc2).
      split; simpl; auto. lia.
Qed.

Lemma Matches_Rep cls min max x y :
  Matches (Rep min max cls) x y ->
  exists run, consumes x run y /\ captures y = captures x
              /\ forallb cls run = true /\ min <= length run
              /\ (forall m, max = Some m -> length run <= m).
Proof.
  inversion 1; subst. exists run. repeat split; auto.
Qed.

Lemma Matches_Group n r x y :
  Matches (Group n r) x y ->
  exists y0 run, Matches r x y0 /\ consumes x run y0 /\ consumes x run y
                 /\ captures y = setCapture n (Some run) (captures y0).
Proof.
  inversion 1 as [| | | | | | | | | | |n0 r0 x0 y0 Hm| | ]; subst.
  destruct (Matches_consumes _ _ _ Hm) as [run Hrun].
  exists y0, run. rewrite (consumes_firstn _ _ _ Hrun).
  repeat split; auto; apply Hrun.
Qed.

Lemma Matches_Seq r1 r2 x z :
  Matches (Seq r1 r2) x z -> exists y, Matches r1 x y /\ Matches r2 y z.
Proof. inversion 1; subst. eauto. Qed.

Lemma Matches_Empty x y : Matches Empty x y -> y = x.
Proof. inversion 1; reflexivity. Qed.

Lemma Matches_Chr ch x y :
  Matches (Chr ch) x y -> consumes x [ch] y /\ captures y = captures x.
Proof. inversion 1; subst. repeat split; simpl; auto. lia. Qed.

Lemma Matches_Alt r1 r2 x y :
  Matches (Alt r1 r2) x y -> Matches r1 x y \/ Matches r2 x y.
Proof. inversion 1; subst; auto. Qed.

Lemma Matches_BackRef n x y :
  Matches (BackRef n) x y ->
  exists t, (captures x n = None /\ t = [] \/ captures x n = Some t)
            /\ consumes x t y /\ captures y = captures x.
Proof.
  inversion 1 as [| | | | | | | | | | | |n0 x0 Hn|n0 t x0 Hn Ht]; subst.
  - exists []. split; [left; auto|]. split; [apply consumes_nil | reflexivity].
  - exists t. destruct (advanceBy_startsWith t x Ht) as (Hr & He & Hc).
    split; [right; exact Hn|]. split; [split; assumption | exact Hc].
Qed.

(** ** The shape of a tag match *)

Lemma regexp_parts : regexp = Seq (Opt leading) tagBody.
Proof. reflexivity. Qed.

Lemma length_nonempty (s : str) : 1 <= length s -> s <> [].
Proof. destruct s; simpl; [lia | discriminate]. Qed.

Lemma optional_slash (sl : str) :
  forallb (char_eqb SLASH) sl = true -> length sl <= 1 -> sl = [] \/ sl = [SLASH].
Proof.
  destruct sl as [|a [|b sl]]; cbn [forallb length]; intros H Hl; auto; [|lia].
  right. apply andb_true_iff in H as [H _]. apply char_eqb_eq in H. congruence.
Qed.

Lemma Matches_Group_Rep n min max cls x y :
  Matches (Group n (Rep min max cls)) x y ->
  exists run, consumes x run y
              /\ captures y = setCapture n (Some run) (captures x)
              /\ forallb cls run = true /\ min <= length run
              /\ (forall m, max = Some m -> length run <= m).
Proof.
  intro H. apply Matches_Group in H as (y0 & run & H & C0 & C & K).
  apply Matches_Rep in H as (run' & C' & K' & Hall & Hmin & Hmax).
  assert (E := consumes_inj _ _ _ _ C0 C'). subst run.
  rewrite K' in K. exists run'. auto.
Qed.

Lemma Matches_Group_quote n a b x y :
  Matches (Group n (Alt (Chr a) (Chr b))) x y ->
  exists q, (q = a \/ q = b) /\ consumes x [q] y
            /\ captures y = setCapture n (Some [q]) (captures x).
Proof.
  intro H. apply Matches_Group in H as (y0 & run & H & C0 & C & K).
  apply Matches_Alt in H as [H|H]; apply Matches_Chr in H as [C' K'];
    assert (E := consumes_inj _ _ _ _ C0 C'); subst run;
    rewrite K' in K; eauto.
Qed.

Lemma tagBody_shape x y :
  Matches tagBody x y ->
  exists f q a sp sl,
    consumes x (bodyText f q a sp sl) y
    /\ captures y 1 = captures x 1
    /\ captures y 2 = Some f /\ f <> [] /\ forallb isLower f = true
    /\ (q = DQUOTE \/ q = SQUOTE)
    /\ captures y 4 = Some a /\ a <> [] /\ forallb notU0003 a = true
    /\ forallb isSpace sp = true /\ (sl = [] \/ sl = [SLASH]).
Proof.
  unfold tagBody, seq. cbn [fold_right]. intro H.
  apply Matches_Seq in H as (x1 & H1 & H).
  apply Matches_Seq in H as (x2 & H2 & H).
  apply Matches_Seq in H as (x3 & H3 & H).
  apply Matches_Seq in H as (x4 & H4 & H).
  apply Matches_Seq in H as (x5 & H5 & H).
  apply Matches_Seq in H as (x6 & H6 & H).
  apply Matches_Seq in H as (x7 & H7 & H).
  apply Matches_Seq in H as (x8 & H8 & H).
  apply Matches_Seq in H as (x9 & H9 & H).
  apply Matches_Empty in H. subst y.
  apply Matches_Lit in H1 as [C1 K1].
  apply Matches_Group_Rep in H2 as (f & C2 & K2 & Hf & Hflen & _).
  apply Matches_Lit in H3 as [C3 K3].
  apply Matches_Group_quote in H4 as (q & Hq & C4 & K4).
  apply Matches_Group_Rep in H5 as (a & C5 & K5 & Ha & Halen & _).
  apply Matches_BackRef in H6 as (t & Ht & C6 & K6).
  apply Matches_Rep in H7 as (sp & C7 & K7 & Hsp & _ & _).
  apply Matches_Rep in H8 as (sl & C8 & K8 & Hsl & _ & Hsllen).
  apply Matches_Chr in H9 as [C9 K9].
  assert (Et : t = [q]).
  { rewrite K5, K4 in Ht. cbn in Ht. destruct Ht as [[Ht _]|Ht]; congruence. }
  subst t.
  exists f, q, a, sp, sl.
  split.
  { unfold bodyText.
    repeat (eapply consumes_trans; [eassumption|]). exact C9. }
  rewrite K9, K8, K7, K6, K5, K4, K3, K2, K1. cbn [setCapture Nat.eqb].
  repeat split; auto using length_nonempty.
  apply optional_slash; auto.
Qed.

Lemma Matches_Opt r x y :
  Matches (Opt r) x y ->
  y = x
  \/ (Matches r (withCaptures (clearCaptures (groupsOf r) (captures x)) x) y
      /\ endIndex y <> endIndex x).
Proof. inversion 1; subst; auto. Qed.

Lemma leading_shape x y :
  Matches (Opt leading) x y ->
  exists w, consumes x w y
            /\ forallb isTabOrSpace w = true
            /\ captures y 1 = match w with [] => captures x 1 | _ => Some w end
            /\ (w <> [] -> atLineStart x = true).
Proof.
  intro H. apply Matches_Opt in H as [->|[H Hne]].
  - exists []. split; [apply consumes_nil|]. repeat split; auto;
      intro Hw; congruence.
  - unfold leading in H.
    apply Matches_Group in H as (y0 & w & H & C0 & C & K).
    apply Matches_Seq in H as (x1 & Hbol & H).
    inversion Hbol as [| | |x' Hstart| | | | | | | | | | ]; subst.
    apply Matches_Rep in H as (w' & C' & _ & Hall & _).
    assert (E := consumes_inj _ _ _ _ C0 C'). subst w'.
    destruct x as [p s e cap]. unfold withCaptures, consumes in *. simpl in *.
    exists w. repeat split; try tauto.
    rewrite K. cbn. destruct w; [|reflexivity].
    simpl in C. exfalso. apply Hne. lia.
Qed.

(** Every match of the tag pattern, read off the matcher's success:
    the units matched are an optional run [w] of tabs and spaces that
    starts a line, and the text of a tag; group 1 is undefined unless
    [w] has a unit; groups 2 and 4 are the verb and the path argument. *)
Theorem regexp_match_shape p s i y :
  matchHere regexp p s i = Some y ->
  exists w f q a sp sl,
    firstn (endIndex y - i) s = w ++ bodyText f q a sp sl
    /\ s = (w ++ bodyText f q a sp sl) ++ rest y
    /\ captures y 1 = match w with [] => None | _ => Some w end
    /\ forallb isTabOrSpace w = true
    /\ (w <> [] -> atLineStart (mkState p s i noCaptures) = true)
    /\ captures y 2 = Some f /\ f <> [] /\ forallb isLower f = true
    /\ (q = DQUOTE \/ q = SQUOTE)
    /\ captures y 4 = Some a /\ a <> [] /\ forallb notU0003 a = true
    /\ forallb isSpace sp = true /\ (sl = [] \/ sl = [SLASH]).
Proof.
  unfold matchHere. intro H.
  apply matcher_sound in H as (y' & H & Hy); [|reflexivity].
  injection Hy as ->.
  rewrite regexp_parts in H. apply Matches_Seq in H as (x1 & Hlead & Hbody).
  apply leading_shape in Hlead as (w & Cw & Hw & Kw & Hstart).
  apply tagBody_shape in Hbody
    as (f & q & a & sp & sl & Cb & K1 & K2 & Hf & Hfl & Hq & K4 & Ha & Hal & Hsp & Hsl).
  assert (C := consumes_trans _ _ _ _ _ Cw Cb).
  exists w, f, q, a, sp, sl.
  split; [apply (consumes_firstn _ _ _ C)|].
  split; [apply C|].
  split; [rewrite K1, Kw; reflexivity|].
  repeat split; auto.
Qed.

(** ** The matches [matchAll] collects *)

Lemma unitBefore_cons p c before :
  unitBefore p (c :: before) = unitBefore (Some c) before.
Proof.
  unfold unitBefore. simpl map. generalize (Some c) (map Some before). clear.
  intros x l. revert x p. induction l as [|a l IH]; intros x p.
  - reflexivity.
  - change (last (x :: a :: l) p) with (last (a :: l) p).
    rewrite (IH a p). symmetry. apply IH.
Qed.

(** Every collected match is a success of the matcher at some position
    of the text. *)
Lemma matchAllFrom_In r m s :
  forall p i covered,
  In m (matchAllFrom r p s i covered) ->
  exists before s' y,
    s = before ++ s'
    /\ matchHere r (unitBefore p before) s' (i + length before) = Some y
    /\ m = mkMatch (firstn (endIndex y - (i + length before)) s')
                   (i + length before) (captures y).
Proof.
  assert (Hlater : forall ch s0 p i,
    (exists before s' y,
        s0 = before ++ s'
        /\ matchHere r (unitBefore (Some ch) before) s' (S i + length before) = Some y
        /\ m = mkMatch (firstn (endIndex y - (S i + length before)) s')
                       (S i + length before) (captures y)) ->
    exists before s' y,
        ch :: s0 = before ++ s'
        /\ matchHere r (unitBefore p before) s' (i + length before) = Some y
        /\ m = mkMatch (firstn (endIndex y - (i + length before)) s')
                       (i + length before) (captures y)).
  { intros ch s0 p i (before & s' & y & -> & Hy & Hm).
    exists (ch :: before), s', y. rewrite unitBefore_cons.
    replace (i + length (ch :: before)) with (S i + length before)
      by (simpl; lia).
    auto. }
  assert (Hhere : forall s0 p i y,
    matchHere r p s0 i = Some y ->
    m = mkMatch (firstn (endIndex y - i) s0) i (captures y) ->
    exists before s' y,
        s0 = before ++ s'
        /\ matchHere r (unitBefore p before) s' (i + length before) = Some y
        /\ m = mkMatch (firstn (endIndex y - (i + length before)) s')
                       (i + length before) (captures y)).
  { intros s0 p i y Hy Hm. exists [], s0, y. simpl. rewrite Nat.add_0_r. auto. }
  induction s as [|ch s IH]; intros p i covered H.
  - destruct covered; simpl in H; [|contradiction].
    destruct (matchHere r p [] i) as [y|] eqn:E; simpl in H; [|contradiction].
    destruct H as [<-|[]]. eapply Hhere; eauto.
  - destruct covered; simpl in H; [|apply Hlater; eapply IH; exact H].
    destruct (matchHere r p (ch :: s) i) as [y|] eqn:E.
    + destruct H as [<-|H]; [eapply Hhere; eauto | apply Hlater; eapply IH; exact H].
    + apply Hlater. eapply IH. exact H.
Qed.

(** The destructured form of the shape: what a tag of [tagsOf] is, and
    where it stands. *)
Theorem tagsOf_shape contents t :
  In t (tagsOf contents) ->
  exists w f q a sp sl before after,
    wholeTag t = w ++ bodyText f q a sp sl
    /\ whitespace t = match w with [] => None | _ => Some w end
    /\ forallb isTabOrSpace w = true
    /\ func t = f /\ f <> [] /\ forallb isLower f = true
    /\ (q = DQUOTE \/ q = SQUOTE)
    /\ src t = a /\ a <> [] /\ forallb notU0003 a = true
    /\ forallb isSpace sp = true /\ (sl = [] \/ sl = [SLASH])
    /\ contents = before ++ wholeTag t ++ after
    /\ tagIndex t = length before
    /\ (w <> [] -> startsLine contents (tagIndex t)).
Proof.
  unfold tagsOf, matchAll. intro H.
  apply in_map_iff in H as (m & <- & H).
  apply matchAllFrom_In in H as (before & s & y & -> & Hm & ->).
  change (0 + length before) with (length before) in *.
  apply regexp_match_shape in Hm
    as (w & f & q & a & sp & sl & Htext & Hs & K1 & Hw & Hstart & K2 & Hf & Hfl & Hq
        & K4 & Ha & Hal & Hsp & Hsl).
  exists w, f, q, a, sp, sl, before, (rest y). unfold destructure. simpl.
  rewrite K1, K2, K4, Htext. repeat split; auto.
  - rewrite <- Hs. reflexivity.
  - intro Hne. specialize (Hstart Hne). unfold atLineStart in Hstart. simpl in Hstart.
    unfold startsLine. destruct before as [|c before] using rev_ind; [left; reflexivity|].
    right. unfold unitBefore in Hstart. rewrite map_app in Hstart.
    cbn [map] in Hstart. rewrite last_last in Hstart.
    exists c. split; [|exact Hstart].
    rewrite length_app. simpl. rewrite Nat.add_1_r. simpl.
    rewrite <- app_assoc. rewrite nth_error_app2 by lia.
    rewrite Nat.sub_diag. reflexivity.
Qed.

(** The README's two tags, on consecutive lines and in the same quotes,
    are one match: the class of group 4 takes the quote too, so the
    path argument runs from the first tag into the second. *)
Lemma readme_tags_are_one_match :
  tagsOf (lit "  <webpack-inject src='./nav.html' />" ++ [LF]
          ++ lit "  <webpack-inject src='./main.html' />")
  = [mkTag (lit "  <webpack-inject src='./nav.html' />" ++ [LF]
            ++ lit "  <webpack-inject src='./main.html' />")
           (Some (lit "  ")) (lit "inject")
           (lit "./nav.html' />" ++ [LF] ++ lit "  <webpack-inject src='./main.html")
           0].
Proof. vm_compute. reflexivity. Qed.

(** Tags in different quotes are matches of their own. *)
Lemma mixed_quotes_are_two_matches :
  tagsOf (lit "<webpack-import src='*.less'>" ++ [LF]
          ++ lit "<webpack-inject src=" ++ [DQUOTE] ++ lit "a.html" ++ [DQUOTE]
          ++ lit ">")
  = [mkTag (lit "<webpack-import src='*.less'>") None
           (lit "import") (lit "*.less") 0;
     mkTag (lit "<webpack-inject src=" ++ [DQUOTE] ++ lit "a.html" ++ [DQUOTE]
            ++ lit ">") None
           (lit "inject") (lit "a.html") 30].
Proof. vm_compute. reflexivity. Qed.

Lemma occurIn_later ts s before : occurIn ts s -> occurIn ts (before ++ s).
Proof.
  intro H. destruct H as [s|t ts b a H]; [constructor|].
  rewrite app_assoc. constructor. exact H.
Qed.

Lemma matchAllFrom_occurIn r s :
  forall p i covered,
  occurIn (map matched (matchAllFrom r p s i covered)) (skipn covered s).
Proof.
  induction s as [|ch s IH]; intros p i covered.
  - destruct covered; simpl; [|constructor].
    destruct (matchHere r p [] i); simpl; [|constructor].
    rewrite firstn_nil. apply (occurIn_cons [] [] [] []). constructor.
  - destruct covered as [|k]; [|apply IH].
    cbn [matchAllFrom skipn].
    destruct (matchHere r p (ch :: s) i) as [y|].
    + cbn [map matched]. set (n := endIndex y - i). destruct n as [|k].
      * apply (occurIn_cons [] _ [] (ch :: s)).
        apply (occurIn_later _ _ [ch]). apply (IH (Some ch) (S i) 0).
      * rewrite <- (firstn_skipn (S k) (ch :: s)) at 2.
        apply (occurIn_cons _ _ []). apply (IH (Some ch) (S i) k).
    + apply (occurIn_later _ _ [ch]). apply (IH (Some ch) (S i) 0).
Qed.

Lemma tagsOf_occurIn contents :
  occurIn (map wholeTag (tagsOf contents)) contents.
Proof.
  unfold tagsOf, matchAll. rewrite map_map. simpl.
  apply (matchAllFrom_occurIn regexp contents None 0 0).
Qed.

(** ** The loop over the matches *)

(** The matches still to process occur, in order, in a tail of the
    document that no splice has touched. *)
Lemma reaches_occurIn contents ms doc :
  reaches contents ms doc ->
  exists done todo, doc = done ++ todo /\ occurIn (map wholeTag ms) todo.
Proof.
  induction 1 as [|t ms doc r _ (done & todo & -> & Hocc)].
  - exists [], contents. split; [reflexivity | apply tagsOf_occurIn].
  - inversion Hocc as [|t' ts before after Hafter]; subst.
    destruct (indexOf_occurs (done ++ before) (wholeTag t) after) as (i & Hi & Hidx).
    rewrite <- app_assoc in Hidx.
    destruct (splice_at _ _ r _ Hidx) as [_ ->].
    exists (firstn i (done ++ before ++ wholeTag t ++ after) ++ r
            ++ skipn (i + length (wholeTag t)) ((done ++ before) ++ wholeTag t)),
           after.
    split; [|exact Hafter].
    rewrite <- !app_assoc. do 2 f_equal.
    replace (done ++ before ++ wholeTag t ++ after)
      with (((done ++ before) ++ wholeTag t) ++ after)
      by (rewrite <- !app_assoc; reflexivity).
    rewrite skipn_app.
    replace (i + length (wholeTag t) - length ((done ++ before) ++ wholeTag t))
      with 0 by (rewrite (length_app (done ++ before)); lia).
    rewrite <- !app_assoc. reflexivity.
Qed.

(** ** Indentation *)

Lemma replaceAllFrom_lineStart w s :
  forall p i,
  replaceAllFrom lineStartRegexp w p s i 0
  = (if atLineStart (mkState p s i noCaptures) then w else [])
    ++ afterTerminators w s.
Proof.
  induction s as [|ch s IH]; intros p i;
    cbn [replaceAllFrom afterTerminators];
    unfold matchHere, lineStartRegexp; cbn [matcher];
    unfold atLineStart; cbn [prev];
    (destruct p as [c|]; [destruct (isLineTerminator c)|]);
    cbn [endIndex]; rewrite ?Nat.sub_diag; try reflexivity;
    rewrite IH; unfold atLineStart; cbn [prev]; reflexivity.
Qed.

Lemma linesOf_nonempty s : linesOf s <> [].
Proof. destruct s as [|c s]; simpl; [|destruct (isLineTerminator c)]; discriminate. Qed.

Lemma concat_linesOf w s :
  concat (map (app w) (linesOf s)) = w ++ afterTerminators w s.
Proof.
  induction s as [|c s IH]; simpl.
  - rewrite !app_nil_r. reflexivity.
  - destruct (isLineTerminator c).
    + simpl. rewrite IH. rewrite <- app_assoc. reflexivity.
    + destruct (linesOf s) as [|l ls] eqn:E; [destruct (linesOf_nonempty _ E)|].
      simpl in *. rewrite <- !app_assoc in *. simpl.
      apply app_inv_head in IH. rewrite <- IH. reflexivity.
Qed.

(** [replacement.replace(/^/gm, w)] puts [w] before every line. *)
Lemma replaceAll_lineStart w s :
  replaceAll lineStartRegexp s w = concat (map (app w) (linesOf s)).
Proof.
  unfold replaceAll. rewrite replaceAllFrom_lineStart, concat_linesOf. reflexivity.
Qed.

(** ** The effects *)

Lemma bind_Returned {A B} (m : M A) (f : A -> M B) log a :
  m = (log, Returned a) -> bind m f = (log ++ fst (f a), snd (f a)).
Proof. intros ->. reflexivity. Qed.

Lemma bind_Thrown {A B} (m : M A) (f : A -> M B) log e :
  m = (log, Thrown e) -> bind m f = (log, Thrown e).
Proof. intros ->. reflexivity. Qed.

Lemma bind_Exhausted {A B} (m : M A) (f : A -> M B) log :
  m = (log, Exhausted) -> bind m f = (log, Exhausted).
Proof. intros ->. reflexivity. Qed.

Lemma tryCatch_Thrown {A} (m : M A) h log e :
  m = (log, Thrown e) -> tryCatch m h = (log ++ fst (h e), snd (h e)).
Proof. intros ->. reflexivity. Qed.

Lemma tryCatch_Returned {A} (m : M A) h log a :
  m = (log, Returned a) -> tryCatch m h = (log, Returned a).
Proof. intros ->. reflexivity. Qed.

Lemma forMatches_app host recur ms1 :
  forall ms2 contents resourcePath log doc,
  forMatches host recur ms1 contents resourcePath = (log, Returned doc) ->
  forMatches host recur (ms1 ++ ms2) contents resourcePath
  = (log ++ fst (forMatches host recur ms2 doc resourcePath),
     snd (forMatches host recur ms2 doc resourcePath)).
Proof.
  induction ms1 as [|t ms1 IH]; intros ms2 contents rp log doc H.
  - injection H as <- <-. simpl. destruct (forMatches _ _ _ _ _). reflexivity.
  - simpl in *. unfold bind in *.
    destruct (replacementOf host recur t rp) as [l [r|e|]]; simpl in *;
      try discriminate.
    destruct (forMatches host recur ms1 _ rp) as [l' o'] eqn:E.
    simpl in H. injection H as <- ->.
    rewrite (IH ms2 _ rp l' doc E). simpl. rewrite app_assoc. reflexivity.
Qed.

(** ** The depth bound

    A pass that ends within a depth ends the same way within every
    greater depth: the bound only cuts off passes that nest deeper. *)

Lemma resolveTag_recur host recur1 recur2 t resourcePath :
  (forall s p, snd (recur1 s p) <> Exhausted -> recur2 s p = recur1 s p) ->
  snd (resolveTag host recur1 t resourcePath) <> Exhausted ->
  resolveTag host recur2 t resourcePath = resolveTag host recur1 t resourcePath.
Proof.
  intros Hrec. unfold resolveTag, bind.
  destruct (getInjectorFunc host (func t)) as [l [f|e|]]; cbn [fst snd];
    try reflexivity.
  destruct (f (src t) resourcePath) as [l' [r|e|]]; cbn [fst snd];
    try reflexivity.
  intro H. rewrite (Hrec r (src t) H). reflexivity.
Qed.

Lemma replacementOf_recur host recur1 recur2 t resourcePath :
  (forall s p, snd (recur1 s p) <> Exhausted -> recur2 s p = recur1 s p) ->
  snd (replacementOf host recur1 t resourcePath) <> Exhausted ->
  replacementOf host recur2 t resourcePath = replacementOf host recur1 t resourcePath.
Proof.
  intros Hrec H. unfold replacementOf in *.
  rewrite (resolveTag_recur host recur1 recur2 t resourcePath Hrec); [reflexivity|].
  intro Hex. apply H. unfold tryCatch. rewrite Hex. exact Hex.
Qed.

Lemma forMatches_recur host recur1 recur2 ms :
  (forall s p, snd (recur1 s p) <> Exhausted -> recur2 s p = recur1 s p) ->
  forall doc resourcePath,
  snd (forMatches host recur1 ms doc resourcePath) <> Exhausted ->
  forMatches host recur2 ms doc resourcePath
  = forMatches host recur1 ms doc resourcePath.
Proof.
  intro Hrec. induction ms as [|t ms IH]; intros doc rp H; [reflexivity|].
  cbn [forMatches] in *.
  rewrite (replacementOf_recur host recur1 recur2 t rp Hrec).
  - unfold bind in *.
    destruct (replacementOf host recur1 t rp) as [l [r|e|]]; cbn [fst snd] in *;
      try reflexivity.
    rewrite IH; [reflexivity | exact H].
  - intro Hex. apply H. unfold bind. rewrite Hex. reflexivity.
Qed.

Lemma parseAndReplace_deeper host depth :
  forall contents resourcePath,
  snd (parseAndReplace host depth contents resourcePath) <> Exhausted ->
  parseAndReplace host (S depth) contents resourcePath
  = parseAndReplace host depth contents resourcePath.
Proof.
  induction depth as [|d IH]; intros contents rp H.
  - exfalso. apply H. reflexivity.
  - change (forMatches host (parseAndReplace host (S d)) (tagsOf contents) contents rp
            = forMatches host (parseAndReplace host d) (tagsOf contents) contents rp).
    apply forMatches_recur; [exact IH | exact H].
Qed.

(** ** The extension pattern of the comment fallback *)

Lemma matchHere_extension_sound p s i y :
  matchHere extensionRegexp p s i = Some y ->
  exists ext, s = DOT :: ext /\ isExtension ext = true /\ captures y 1 = Some ext.
Proof.
  unfold matchHere. intro H.
  apply matcher_sound in H as (y' & H & Hy); [|reflexivity].
  injection Hy as ->. unfold extensionRegexp, seq in H. cbn [fold_right] in H.
  apply Matches_Seq in H as (x1 & H1 & H).
  apply Matches_Seq in H as (x2 & H2 & H).
  apply Matches_Seq in H as (x3 & H3 & H).
  apply Matches_Empty in H. subst y.
  apply Matches_Chr in H1 as [[C1 _] K1].
  apply Matches_Group_Rep in H2 as (ext & [C2 _] & K2 & Hext & Hmin & Hmax).
  inversion H3 as [| | | |x' Hend| | | | | | | | | ]; subst.
  simpl in C1. rewrite C2, Hend, app_nil_r in C1.
  exists ext. split; [exact C1|]. split.
  - unfold isExtension. rewrite Hext.
    specialize (Hmax 4 eq_refl).
    destruct (Nat.leb_spec 3 (length ext)); [|lia].
    destruct (Nat.leb_spec (length ext) 4); [reflexivity | lia].
  - rewrite K2. reflexivity.
Qed.

Lemma matchHere_extension_complete p ext i :
  isExtension ext = true ->
  exists y, matchHere extensionRegexp p (DOT :: ext) i = Some y
            /\ captures y 1 = Some ext.
Proof.
  unfold isExtension. intro H.
  apply andb_true_iff in H as [H Hall]. apply andb_true_iff in H as [H3 H4].
  apply Nat.leb_le in H3, H4.
  destruct ext as [|a [|b [|c [|d [|e ext]]]]]; simpl in H3, H4; try lia;
    cbn [forallb] in Hall;
    repeat (apply andb_true_iff in Hall as [? Hall]);
    unfold matchHere, extensionRegexp, seq;
    cbn [fold_right matcher charSetMatcher rest prev endIndex captures
         repeatMatcher pred option_map];
    rewrite char_eqb_refl;
    cbn [rest prev endIndex captures repeatMatcher pred option_map];
    repeat match goal with
           | Hl : isLower ?x = true |- _ => rewrite Hl; clear Hl
           end;
    cbn [rest prev endIndex captures withCaptures];
    eexists; (split; [reflexivity|]); cbn [captures setCapture Nat.eqb];
    [replace (S (S (S (S i))) - S i) with 3 by lia
    |replace (S (S (S (S (S i)))) - S i) with 4 by lia]; reflexivity.
Qed.

(** [resourcePath.match] finds the extension of a path that has one. *)
Lemma exec_extension stem :
  forall p i ext,
  isExtension ext = true ->
  exists y, exec extensionRegexp p (stem ++ DOT :: ext) i = Some (i + length stem, y)
            /\ captures y 1 = Some ext.
Proof.
  induction stem as [|c stem IH]; intros p i ext Hext.
  - destruct (matchHere_extension_complete p ext i Hext) as (y & Hy & K).
    exists y. simpl. rewrite Hy, Nat.add_0_r. auto.
  - cbn [app exec].
    destruct (matchHere extensionRegexp p (c :: stem ++ DOT :: ext) i) as [y|] eqn:E.
    + exfalso. apply matchHere_extension_sound in E as (ext' & Heq & Hext' & _).
      injection Heq as _ <-. unfold isExtension in Hext'.
      apply andb_true_iff in Hext' as [_ Hall].
      rewrite forallb_app in Hall. apply andb_true_iff in Hall as [_ Hall].
      discriminate.
    + destruct (IH (Some c) (S i) ext Hext) as (y & Hy & K).
      exists y. rewrite Hy. simpl. rewrite Nat.add_succ_r. auto.
Qed.

(** And finds nothing in a path that has none. *)
Lemma exec_extension_none s :
  forall p i, ~ extensionLike s -> exec extensionRegexp p s i = None.
Proof.
  induction s as [|c s IH]; intros p i Hno; cbn [exec].
  - destruct (matchHere extensionRegexp p [] i) eqn:E; [|reflexivity].
    apply matchHere_extension_sound in E as (ext & Heq & _). discriminate.
  - destruct (matchHere extensionRegexp p (c :: s) i) eqn:E.
    + exfalso. apply Hno.
      apply matchHere_extension_sound in E as (ext & Heq & Hext & _).
      exists [], ext. auto.
    + apply IH. intros (stem & ext & -> & Hext). apply Hno.
      exists (c :: stem), ext. auto.
Qed.

Lemma extensionLike_exec s :
  extensionLike s <-> exec extensionRegexp None s 0 <> None.
Proof.
  split.
  - intros (stem & ext & -> & Hext).
    destruct (exec_extension stem None 0 ext Hext) as (y & -> & _). discriminate.
  - intro H. destruct (exec extensionRegexp None s 0) as [found|] eqn:E;
      [|congruence].
    clear H. revert E. generalize (@None char) 0.
    induction s as [|c s IH]; intros p i E; cbn [exec] in E.
    + destruct (matchHere extensionRegexp p [] i) eqn:Em; [|discriminate].
      apply matchHere_extension_sound in Em as (ext & Heq & _). discriminate.
    + destruct (matchHere extensionRegexp p (c :: s) i) eqn:Em.
      * apply matchHere_extension_sound in Em as (ext & Heq & Hext & _).
        exists [], ext. auto.
      * apply IH in E as (stem & ext & -> & Hext).
        exists (c :: stem), ext. auto.
Qed.

Lemma wrapInCommentSyntax_html s stem :
  wrapInCommentSyntax s (stem ++ lit ".html")
  = ret (lit "<!-- " ++ s ++ lit " -->").
Proof.
  unfold wrapInCommentSyntax.
  destruct (exec_extension stem None 0 (lit "html") eq_refl) as (y & Hy & K).
  change (lit ".html") with (DOT :: lit "html"). rewrite Hy, K. reflexivity.
Qed.

Lemma wrapInCommentSyntax_block s stem ext :
  isExtension ext = true -> ext <> lit "html" ->
  wrapInCommentSyntax s (stem ++ DOT :: ext)
  = ret (lit "/* " ++ s ++ lit " */").
Proof.
  intros Hext Hne. unfold wrapInCommentSyntax.
  destruct (exec_extension stem None 0 ext Hext) as (y & Hy & K).
  rewrite Hy, K.
  destruct (Str.eqb ext (lit "html")) eqn:E; [|reflexivity].
  apply str_eqb_eq in E. contradiction.
Qed.

Lemma wrapInCommentSyntax_throws s resourcePath :
  ~ extensionLike resourcePath ->
  wrapInCommentSyntax s resourcePath = throw (NotAValidFilePath resourcePath).
Proof.
  intro H. unfold wrapInCommentSyntax.
  rewrite (exec_extension_none resourcePath None 0 H). reflexivity.
Qed.

(** ** [split] *)

Lemma split_nonempty sep s : split sep s <> [].
Proof. destruct s as [|c s]; simpl; [|destruct (char_eqb c sep)]; discriminate. Qed.

Lemma split_length sep s : 1 <= length (split sep s).
Proof.
  pose proof (split_nonempty sep s). destruct (split sep s); simpl; [congruence | lia].
Qed.

(** Joining the fields with the separator gives the text back. *)
Lemma join_split sep s : join [sep] (split sep s) = s.
Proof.
  induction s as [|c s IH]; [reflexivity|]. cbn [split].
  pose proof (split_nonempty sep s) as Hne.
  destruct (split sep s) as [|f fs]; [congruence|].
  destruct (char_eqb c sep) eqn:E.
  - apply char_eqb_eq in E. subst c. cbn [join]. cbn [join] in IH.
    simpl. f_equal. exact IH.
  - cbn [hd tl]. rewrite <- IH. destruct fs; reflexivity.
Qed.

(** A text that ends in the separator has an empty last field. *)
Lemma split_trailing sep s : split sep (s ++ [sep]) = split sep s ++ [[]].
Proof.
  induction s as [|c s IH]; cbn [app split].
  - rewrite char_eqb_refl. reflexivity.
  - rewrite IH. pose proof (split_nonempty sep s) as Hne.
    destruct (split sep s) as [|f fs]; [congruence|].
    destruct (char_eqb c sep); reflexivity.
Qed.

(** ** The claims *)

(** C9.  A text in which the tag pattern does not occur goes through
    the pass unchanged, and without an effect; so does the output of a
    pass when no tag is left in it, since that is one such text. *)
Theorem C9_no_tag_identity (host : Host) (depth : nat) (contents resourcePath : str) :
  matchAll regexp contents = [] ->
  parseAndReplace host (S depth) contents resourcePath = ([], Returned contents).
Proof.
  intro H. cbn [parseAndReplace]. unfold tagsOf. rewrite H. reflexivity.
Qed.

Lemma C9_no_tag_identity_witness :
  matchAll regexp (lit "<p>hello</p>") = []
  /\ parseAndReplace Examples.bare 1 (lit "<p>hello</p>") Examples.indexHtml
     = ([], Returned (lit "<p>hello</p>")).
Proof.
  split; [vm_compute; reflexivity|].
  apply (C9_no_tag_identity Examples.bare 0 (lit "<p>hello</p>") Examples.indexHtml).
  vm_compute. reflexivity.
Defined.

(** The pattern cannot occur in a text without an opening bracket. *)
Lemma no_bracket_no_tag (contents : str) :
  forallb (fun c => negb (char_eqb c LT)) contents = true ->
  matchAll regexp contents = [].
Proof.
  intro H. destruct (matchAll regexp contents) as [|m ms] eqn:E; [reflexivity|].
  exfalso.
  assert (Hin : In m (matchAll regexp contents)) by (rewrite E; left; reflexivity).
  apply matchAllFrom_In in Hin as (before & s & y & -> & Hm & _).
  apply regexp_match_shape in Hm as (w & f & q & a & sp & sl & _ & Hs & _).
  rewrite Hs in H. rewrite !forallb_app in H.
  apply andb_true_iff in H as [_ H]. apply andb_true_iff in H as [H _].
  apply andb_true_iff in H as [_ H]. discriminate.
Qed.

(** C6.  Whenever the loop stands before a match, the matched text
    occurs in the document; the splice of lines 63-64 replaces its
    first occurrence by the indented replacement and leaves the text
    before and after it as it was. *)
Theorem C6_splice_first_occurrence (contents : str) (t : Tag) (ms : list Tag)
        (doc : str) :
  reaches contents (t :: ms) doc ->
  exists before after,
    doc = before ++ wholeTag t ++ after
    /\ indexOf doc (wholeTag t) = Z.of_nat (length before)
    /\ (forall k, k < length before -> startsWith (wholeTag t) (skipn k doc) = false)
    /\ (forall replacement,
          splice doc (wholeTag t) replacement = before ++ replacement ++ after)
    /\ (forall host recur resourcePath,
          forMatches host recur (t :: ms) doc resourcePath
          = (replacement <- replacementOf host recur t resourcePath ;;
             forMatches host recur ms
               (before ++ indent (whitespace t) replacement ++ after) resourcePath)).
Proof.
  intro H. apply reaches_occurIn in H as (done & todo & -> & Hocc).
  inversion Hocc as [|t' ts pre after Hafter]; subst.
  destruct (indexOf_occurs (done ++ pre) (wholeTag t) after) as (i & Hi & Hidx).
  rewrite <- app_assoc in Hidx.
  set (doc := done ++ pre ++ wholeTag t ++ after) in *.
  assert (Hlen : i <= length doc).
  { unfold doc. rewrite !length_app in *. lia. }
  destruct (indexOf_first _ _ _ Hidx) as [_ Hfirst].
  exists (firstn i doc), (skipn (i + length (wholeTag t)) doc).
  rewrite length_firstn, Nat.min_l by exact Hlen.
  repeat split; auto.
  - apply (splice_at doc (wholeTag t) [] i Hidx).
  - intro r. apply (splice_at doc (wholeTag t) r i Hidx).
  - intros host recur rp. cbn [forMatches]. unfold bind.
    destruct (snd (replacementOf host recur t rp)); try reflexivity.
    destruct (splice_at doc (wholeTag t) (indent (whitespace t) a) i Hidx) as [_ ->].
    reflexivity.
Qed.

Lemma C6_splice_first_occurrence_witness :
  reaches Examples.indented [Examples.indentedTag] Examples.indented
  /\ exists before after,
       Examples.indented = before ++ wholeTag Examples.indentedTag ++ after
       /\ indexOf Examples.indented (wholeTag Examples.indentedTag)
          = Z.of_nat (length before)
       /\ (forall k, k < length before ->
             startsWith (wholeTag Examples.indentedTag) (skipn k Examples.indented)
             = false)
       /\ (forall replacement,
             splice Examples.indented (wholeTag Examples.indentedTag) replacement
             = before ++ replacement ++ after)
       /\ (forall host recur resourcePath,
             forMatches host recur [Examples.indentedTag] Examples.indented resourcePath
             = (replacement <- replacementOf host recur Examples.indentedTag resourcePath ;;
                forMatches host recur []
                  (before ++ indent (whitespace Examples.indentedTag) replacement ++ after)
                  resourcePath)).
Proof.
  assert (H : reaches Examples.indented [Examples.indentedTag] Examples.indented).
  { assert (E : tagsOf Examples.indented = [Examples.indentedTag])
      by (vm_compute; reflexivity).
    rewrite <- E. apply reaches_start. }
  split; [exact H|].
  apply (C6_splice_first_occurrence Examples.indented Examples.indentedTag []
           Examples.indented H).
Defined.

(** The documents the loop goes through are the ones [reaches] counts:
    what a pass returns was reached from its input. *)
Lemma forMatches_reaches host recur contents resourcePath ms :
  forall doc log out,
  reaches contents ms doc ->
  forMatches host recur ms doc resourcePath = (log, Returned out) ->
  reaches contents [] out.
Proof.
  induction ms as [|t ms IH]; intros doc log out Hr H.
  - injection H as _ <-. exact Hr.
  - cbn [forMatches] in H. unfold bind in H.
    destruct (replacementOf host recur t resourcePath) as [l [r|e|]];
      cbn [fst snd] in H; try discriminate.
    destruct (forMatches host recur ms _ resourcePath) as [l' o'] eqn:E.
    cbn [fst snd] in H. injection H as _ ->.
    eapply IH; [|exact E]. apply reaches_splice. exact Hr.
Qed.

Lemma parseAndReplace_reaches host depth contents resourcePath log out :
  parseAndReplace host depth contents resourcePath = (log, Returned out) ->
  reaches contents [] out.
Proof.
  destruct depth as [|d]; [discriminate|]. cbn [parseAndReplace].
  apply forMatches_reaches. apply reaches_start.
Qed.

(** C8.  A match whose group 1 took part starts a line with a run of
    tabs and spaces, and its replacement is spliced in with that run
    before every one of its lines; the replacement of a match without
    it is spliced in as it is. *)
Theorem C8_indent_every_line (host : Host) (recur : str -> str -> M str)
        (contents : str) (t : Tag) (ms : list Tag) (doc resourcePath : str)
        (log : list event) (replacement : str) :
  In t (tagsOf contents) ->
  replacementOf host recur t resourcePath = (log, Returned replacement) ->
  exists indented,
    forMatches host recur (t :: ms) doc resourcePath
    = (log ++ fst (forMatches host recur ms
                     (splice doc (wholeTag t) indented) resourcePath),
       snd (forMatches host recur ms
              (splice doc (wholeTag t) indented) resourcePath))
    /\ match whitespace t with
       | Some w =>
           w <> [] /\ forallb isTabOrSpace w = true
           /\ startsLine contents (tagIndex t)
           /\ (exists body, wholeTag t = w ++ body)
           /\ indented = concat (map (app w) (linesOf replacement))
       | None => indented = replacement
       end.
Proof.
  intros Hin Hrep. exists (indent (whitespace t) replacement). split.
  - cbn [forMatches]. unfold bind. rewrite Hrep. reflexivity.
  - apply tagsOf_shape in Hin
      as (w & f & q & a & sp & sl & before & after & Hwhole & Hws & Hw & _ & _ & _
          & _ & _ & _ & _ & _ & _ & _ & _ & Hstart).
    rewrite Hws. destruct w as [|c w]; [reflexivity|].
    repeat split; auto; try discriminate.
    + apply Hstart. discriminate.
    + exists (bodyText f q a sp sl). exact Hwhole.
    + unfold indent. cbn [truthy]. apply replaceAll_lineStart.
Qed.

Lemma C8_indent_every_line_witness :
  In Examples.indentedTag (tagsOf Examples.indented)
  /\ replacementOf Examples.navbar (parseAndReplace Examples.navbar 1)
       Examples.indentedTag Examples.indexHtml
     = ([LogInserting (lit "/repo/nav.html") Examples.indexHtml;
         AddDependency (lit "/repo/nav.html")],
        Returned (lit "<div id='navbar'>" ++ [LF] ++ lit "  <div>Home</div>"
                  ++ [LF] ++ lit "</div>"))
  /\ exists indented,
       forMatches Examples.navbar (parseAndReplace Examples.navbar 1)
         [Examples.indentedTag] Examples.indented Examples.indexHtml
       = ([LogInserting (lit "/repo/nav.html") Examples.indexHtml;
           AddDependency (lit "/repo/nav.html")]
          ++ fst (forMatches Examples.navbar (parseAndReplace Examples.navbar 1) []
                    (splice Examples.indented (wholeTag Examples.indentedTag) indented)
                    Examples.indexHtml),
          snd (forMatches Examples.navbar (parseAndReplace Examples.navbar 1) []
                 (splice Examples.indented (wholeTag Examples.indentedTag) indented)
                 Examples.indexHtml))
       /\ match whitespace Examples.indentedTag with
          | Some w =>
              w <> [] /\ forallb isTabOrSpace w = true
              /\ startsLine Examples.indented (tagIndex Examples.indentedTag)
              /\ (exists body, wholeTag Examples.indentedTag = w ++ body)
              /\ indented
                 = concat (map (app w)
                     (linesOf (lit "<div id='navbar'>" ++ [LF]
                               ++ lit "  <div>Home</div>" ++ [LF] ++ lit "</div>")))
          | None =>
              indented = lit "<div id='navbar'>" ++ [LF] ++ lit "  <div>Home</div>"
                         ++ [LF] ++ lit "</div>"
          end.
Proof.
  assert (E : tagsOf Examples.indented = [Examples.indentedTag])
    by (vm_compute; reflexivity).
  assert (Hin : In Examples.indentedTag (tagsOf Examples.indented))
    by (rewrite E; left; reflexivity).
  assert (Hrep : replacementOf Examples.navbar (parseAndReplace Examples.navbar 1)
                   Examples.indentedTag Examples.indexHtml
                 = ([LogInserting (lit "/repo/nav.html") Examples.indexHtml;
                     AddDependency (lit "/repo/nav.html")],
                    Returned (lit "<div id='navbar'>" ++ [LF]
                              ++ lit "  <div>Home</div>" ++ [LF] ++ lit "</div>")))
    by (vm_compute; reflexivity).
  split; [exact Hin|]. split; [exact Hrep|].
  apply (C8_indent_every_line Examples.navbar (parseAndReplace Examples.navbar 1)
           Examples.indented Examples.indentedTag [] Examples.indented
           Examples.indexHtml _ _ Hin Hrep).
Defined.

(** ** The import verb *)

Lemma findMatchingFiles_found host pattern relativeTo out :
  cp_execFileSync host (lit "find")
    [relativeTo; lit "-type"; lit "-f"; lit "-name"; pattern] = Some out ->
  findMatchingFiles host pattern relativeTo = ([], Returned (split LF out)).
Proof. intro H. unfold findMatchingFiles. rewrite H. reflexivity. Qed.

Lemma findMatchingFiles_failed host pattern relativeTo :
  cp_execFileSync host (lit "find")
    [relativeTo; lit "-type"; lit "-f"; lit "-name"; pattern] = None ->
  findMatchingFiles host pattern relativeTo
  = ([], Thrown (FailedToFindFiles pattern relativeTo
                   (HostError (lit "execFileSync")))).
Proof. intro H. unfold findMatchingFiles. rewrite H. reflexivity. Qed.

(** C10.  Whatever text [find] prints, the import verb splits it at
    the newlines and returns one statement per field, the empty fields
    too: the statement of a field [p] is the import word, a space, [p]
    in double quotes, a semicolon and a newline.  An empty output and
    the field after a closing newline each give the statement of the
    empty path, and the verb never throws for want of files: the one
    error it ends with is that of [find] itself. *)
Theorem C10_one_statement_per_field (host : Host) (pattern resourcePath : str) :
  let imprt := importWord host resourcePath in
  let statement := fun p : str =>
    imprt ++ lit " " ++ [DQUOTE] ++ p ++ [DQUOTE] ++ lit ";" ++ [LF] in
  addImportStatements host pattern resourcePath
  = match cp_execFileSync host (lit "find")
            [path_dirname host resourcePath; lit "-type"; lit "-f"; lit "-name";
             pattern] with
    | Some out =>
        ([LogInjecting (length (split LF out)) imprt resourcePath pattern
            (join (LF :: lit "    ")
               (split LF (concat (map statement (split LF out)))))],
         Returned (concat (map statement (split LF out))))
    | None =>
        ([], Thrown (FailedToFindFiles pattern (path_dirname host resourcePath)
                       (HostError (lit "execFileSync"))))
    end
  /\ (imprt = lit "import" \/ imprt = lit "@import")
  /\ (forall out, join [LF] (split LF out) = out /\ 1 <= length (split LF out))
  /\ concat (map statement (split LF []))
     = imprt ++ lit " " ++ [DQUOTE; DQUOTE] ++ lit ";" ++ [LF]
  /\ (forall o,
      concat (map statement (split LF (o ++ [LF])))
      = concat (map statement (split LF o))
        ++ imprt ++ lit " " ++ [DQUOTE; DQUOTE] ++ lit ";" ++ [LF])
  /\ snd (addImportStatements host pattern resourcePath)
     <> Thrown (NoFilesMatched pattern (path_dirname host resourcePath)).
Proof.
  intros imprt statement.
  assert (E : addImportStatements host pattern resourcePath
              = match cp_execFileSync host (lit "find")
                        [path_dirname host resourcePath; lit "-type"; lit "-f";
                         lit "-name"; pattern] with
                | Some out =>
                    ([LogInjecting (length (split LF out)) imprt resourcePath pattern
                        (join (LF :: lit "    ")
                           (split LF (concat (map statement (split LF out)))))],
                     Returned (concat (map statement (split LF out))))
                | None =>
                    ([], Thrown (FailedToFindFiles pattern
                                   (path_dirname host resourcePath)
                                   (HostError (lit "execFileSync"))))
                end).
  { unfold addImportStatements.
    destruct (cp_execFileSync host (lit "find") _) as [out|] eqn:H.
    - rewrite (bind_Returned _ _ _ _ (findMatchingFiles_found _ _ _ _ H)).
      pose proof (split_length LF out) as Hlen.
      destruct (Nat.eqb_spec (length (split LF out)) 0) as [Hz|_]; [lia|].
      reflexivity.
    - rewrite (bind_Thrown _ _ _ _ (findMatchingFiles_failed _ _ _ H)).
      reflexivity. }
  split; [exact E|].
  split; [unfold imprt, importWord; destruct (existsb _ _); auto|].
  split; [intro out; split; [apply join_split | apply split_length]|].
  split; [cbn [split map concat]; unfold statement; rewrite app_nil_r; reflexivity|].
  split.
  - intro o. rewrite split_trailing, map_app, concat_app. cbn [map concat].
    unfold statement. rewrite app_nil_r. reflexivity.
  - rewrite E. destruct (cp_execFileSync host (lit "find") _); cbn [snd]; discriminate.
Qed.

(** A host whose [path.extname] answers as Node's does, with the
    empty text or with a text that starts with the dot, never has
    line 143 choose [import]. *)
Lemma importWord_at_import host resourcePath :
  (path_extname host resourcePath = []
   \/ exists e, path_extname host resourcePath = DOT :: e) ->
  importWord host resourcePath = lit "@import".
Proof.
  intros [E|[e E]]; unfold importWord; rewrite E; reflexivity.
Qed.

(** ** The comment fallback *)

(** A path with an extension has one extension. *)
Lemma extension_unique stem ext stem' ext' :
  isExtension ext = true -> isExtension ext' = true ->
  stem ++ DOT :: ext = stem' ++ DOT :: ext' -> ext = ext'.
Proof.
  intros H H' E.
  destruct (exec_extension stem None 0 ext H) as (y & Hy & K).
  destruct (exec_extension stem' None 0 ext' H') as (y' & Hy' & K').
  rewrite E, Hy' in Hy. injection Hy as _ <-. congruence.
Qed.

(** The [catch] of lines 52-55 after a [try] that threw. *)
Lemma replacementOf_caught host recur t resourcePath log e :
  resolveTag host recur t resourcePath = (log, Thrown e) ->
  replacementOf host recur t resourcePath
  = (log ++ LogTagFailed (func t) resourcePath (tagIndex t) e
         :: fst (wrapInCommentSyntax (wholeTag t) resourcePath),
     snd (wrapInCommentSyntax (wholeTag t) resourcePath)).
Proof.
  intro H. unfold replacementOf. rewrite (tryCatch_Thrown _ _ _ _ H). reflexivity.
Qed.

(** C2, as amended.  When resolving a tag throws and the resource path
    ends in a dot and three or four lower-case letters, the replacement
    is the matched text in an HTML comment if those letters are [html]
    and in a block comment otherwise; the failure goes to the console,
    and the loop goes on with the matches that are left. *)
Theorem C2_comment_fallback (host : Host) (recur : str -> str -> M str)
        (t : Tag) (ms : list Tag) (doc resourcePath : str)
        (log : list event) (e : error) :
  resolveTag host recur t resourcePath = (log, Thrown e) ->
  extensionLike resourcePath ->
  exists wrapped,
    ((exists stem, resourcePath = stem ++ lit ".html") ->
     wrapped = lit "<!-- " ++ wholeTag t ++ lit " -->")
    /\ (~ (exists stem, resourcePath = stem ++ lit ".html") ->
        wrapped = lit "/* " ++ wholeTag t ++ lit " */")
    /\ replacementOf host recur t resourcePath
       = (log ++ [LogTagFailed (func t) resourcePath (tagIndex t) e],
          Returned wrapped)
    /\ forMatches host recur (t :: ms) doc resourcePath
       = (log ++ LogTagFailed (func t) resourcePath (tagIndex t) e
              :: fst (forMatches host recur ms
                        (splice doc (wholeTag t) (indent (whitespace t) wrapped))
                        resourcePath),
          snd (forMatches host recur ms
                 (splice doc (wholeTag t) (indent (whitespace t) wrapped))
                 resourcePath)).
Proof.
  intros Hthrown (stem & ext & -> & Hext).
  pose proof (replacementOf_caught host recur t _ log e Hthrown) as Hrep.
  assert (Hloop : forall wrapped,
    replacementOf host recur t (stem ++ DOT :: ext)
    = (log ++ [LogTagFailed (func t) (stem ++ DOT :: ext) (tagIndex t) e],
       Returned wrapped) ->
    forMatches host recur (t :: ms) doc (stem ++ DOT :: ext)
    = (log ++ LogTagFailed (func t) (stem ++ DOT :: ext) (tagIndex t) e
           :: fst (forMatches host recur ms
                     (splice doc (wholeTag t) (indent (whitespace t) wrapped))
                     (stem ++ DOT :: ext)),
       snd (forMatches host recur ms
              (splice doc (wholeTag t) (indent (whitespace t) wrapped))
              (stem ++ DOT :: ext)))).
  { intros wrapped Hw. cbn [forMatches]. unfold bind. rewrite Hw. cbn [fst snd].
    rewrite <- app_assoc. reflexivity. }
  destruct (Str.eqb ext (lit "html")) eqn:Ehtml.
  - apply str_eqb_eq in Ehtml. subst ext.
    change (DOT :: lit "html") with (lit ".html") in *.
    rewrite wrapInCommentSyntax_html in Hrep.
    exists (lit "<!-- " ++ wholeTag t ++ lit " -->").
    split; [reflexivity|]. split; [intro Hno; exfalso; apply Hno; eauto|].
    split; [exact Hrep | apply Hloop; exact Hrep].
  - assert (Hne : ext <> lit "html").
    { intro Heq. rewrite Heq, str_eqb_refl in Ehtml. discriminate. }
    rewrite (wrapInCommentSyntax_block _ _ _ Hext Hne) in Hrep.
    exists (lit "/* " ++ wholeTag t ++ lit " */").
    split; [|split; [reflexivity | split; [exact Hrep | apply Hloop; exact Hrep]]].
    intros (stem' & Heq). exfalso. apply Hne.
    apply (extension_unique stem ext stem' (lit "html") Hext eq_refl Heq).
Qed.

Lemma C2_comment_fallback_witness :
  resolveTag Examples.bare (parseAndReplace Examples.bare 1)
    Examples.unknownVerbTag Examples.mainLess
  = ([], Thrown (NoSuchInjectFunction (lit "foo")))
  /\ extensionLike Examples.mainLess
  /\ exists wrapped,
       ((exists stem, Examples.mainLess = stem ++ lit ".html") ->
        wrapped = lit "<!-- " ++ wholeTag Examples.unknownVerbTag ++ lit " -->")
       /\ (~ (exists stem, Examples.mainLess = stem ++ lit ".html") ->
           wrapped = lit "/* " ++ wholeTag Examples.unknownVerbTag ++ lit " */")
       /\ replacementOf Examples.bare (parseAndReplace Examples.bare 1)
            Examples.unknownVerbTag Examples.mainLess
          = ([] ++ [LogTagFailed (func Examples.unknownVerbTag) Examples.mainLess
                      (tagIndex Examples.unknownVerbTag)
                      (NoSuchInjectFunction (lit "foo"))],
             Returned wrapped)
       /\ forMatches Examples.bare (parseAndReplace Examples.bare 1)
            [Examples.unknownVerbTag] Examples.unknownVerb Examples.mainLess
          = ([] ++ LogTagFailed (func Examples.unknownVerbTag) Examples.mainLess
                     (tagIndex Examples.unknownVerbTag)
                     (NoSuchInjectFunction (lit "foo"))
                 :: fst (forMatches Examples.bare (parseAndReplace Examples.bare 1) []
                           (splice Examples.unknownVerb
                              (wholeTag Examples.unknownVerbTag)
                              (indent (whitespace Examples.unknownVerbTag) wrapped))
                           Examples.mainLess),
             snd (forMatches Examples.bare (parseAndReplace Examples.bare 1) []
                    (splice Examples.unknownVerb
                       (wholeTag Examples.unknownVerbTag)
                       (indent (whitespace Examples.unknownVerbTag) wrapped))
                    Examples.mainLess)).
Proof.
  assert (H : resolveTag Examples.bare (parseAndReplace Examples.bare 1)
                Examples.unknownVerbTag Examples.mainLess
              = ([], Thrown (NoSuchInjectFunction (lit "foo"))))
    by (vm_compute; reflexivity).
  assert (Hext : extensionLike Examples.mainLess).
  { exists (lit "/repo/src/main"), (lit "less"). split; vm_compute; reflexivity. }
  split; [exact H|]. split; [exact Hext|].
  apply (C2_comment_fallback Examples.bare (parseAndReplace Examples.bare 1)
           Examples.unknownVerbTag [] Examples.unknownVerb Examples.mainLess
           [] (NoSuchInjectFunction (lit "foo")) H Hext).
Defined.

(** The claim as first stated: a resource path that does not end in
    [.html] need not give a block comment.  For [/repo/src/Makefile]
    the failed tag is not replaced at all: the fallback throws, and the
    pass with it. *)
Lemma C2_counterexample :
  tagsOf Examples.unknownVerb = [Examples.unknownVerbTag]
  /\ resolveTag Examples.bare (parseAndReplace Examples.bare 1)
       Examples.unknownVerbTag Examples.makefile
     = ([], Thrown (NoSuchInjectFunction (lit "foo")))
  /\ replacementOf Examples.bare (parseAndReplace Examples.bare 1)
       Examples.unknownVerbTag Examples.makefile
     = ([LogTagFailed (lit "foo") Examples.makefile 0
           (NoSuchInjectFunction (lit "foo"))],
        Thrown (NotAValidFilePath Examples.makefile))
  /\ parseAndReplace Examples.bare 2 Examples.unknownVerb Examples.makefile
     = ([LogTagFailed (lit "foo") Examples.makefile 0
           (NoSuchInjectFunction (lit "foo"))],
        Thrown (NotAValidFilePath Examples.makefile)).
Proof. repeat split; vm_compute; reflexivity. Qed.

(** C7.  When resolving a tag throws and the resource path does not end
    in a dot and three or four lower-case letters, the comment fallback
    throws; nothing catches that error, so the pass ends with it, the
    matches that are left unprocessed. *)
Theorem C7_fallback_throws_through (host : Host) (depth : nat)
        (contents resourcePath : str) (ms1 : list Tag) (t : Tag) (ms2 : list Tag)
        (log1 : list event) (doc : str) (log : list event) (e : error) :
  tagsOf contents = ms1 ++ t :: ms2 ->
  forMatches host (parseAndReplace host depth) ms1 contents resourcePath
  = (log1, Returned doc) ->
  resolveTag host (parseAndReplace host depth) t resourcePath = (log, Thrown e) ->
  ~ extensionLike resourcePath ->
  wrapInCommentSyntax (wholeTag t) resourcePath
  = ([], Thrown (NotAValidFilePath resourcePath))
  /\ replacementOf host (parseAndReplace host depth) t resourcePath
     = (log ++ [LogTagFailed (func t) resourcePath (tagIndex t) e],
        Thrown (NotAValidFilePath resourcePath))
  /\ parseAndReplace host (S depth) contents resourcePath
     = (log1 ++ log ++ [LogTagFailed (func t) resourcePath (tagIndex t) e],
        Thrown (NotAValidFilePath resourcePath)).
Proof.
  intros Htags Hbefore Hthrown Hno.
  pose proof (wrapInCommentSyntax_throws (wholeTag t) resourcePath Hno) as Hwrap.
  pose proof (replacementOf_caught host _ t resourcePath log e Hthrown) as Hrep.
  rewrite Hwrap in Hrep. cbn [throw fst snd] in Hrep.
  split; [exact Hwrap|]. split; [exact Hrep|].
  cbn [parseAndReplace]. rewrite Htags.
  rewrite (forMatches_app host _ ms1 (t :: ms2) contents resourcePath log1 doc Hbefore).
  cbn [forMatches]. rewrite (bind_Thrown _ _ _ _ Hrep). reflexivity.
Qed.

Lemma C7_fallback_throws_through_witness :
  tagsOf Examples.unknownVerb = [] ++ Examples.unknownVerbTag :: []
  /\ forMatches Examples.bare (parseAndReplace Examples.bare 1) []
       Examples.unknownVerb Examples.makefile
     = ([], Returned Examples.unknownVerb)
  /\ resolveTag Examples.bare (parseAndReplace Examples.bare 1)
       Examples.unknownVerbTag Examples.makefile
     = ([], Thrown (NoSuchInjectFunction (lit "foo")))
  /\ ~ extensionLike Examples.makefile
  /\ wrapInCommentSyntax (wholeTag Examples.unknownVerbTag) Examples.makefile
     = ([], Thrown (NotAValidFilePath Examples.makefile))
  /\ replacementOf Examples.bare (parseAndReplace Examples.bare 1)
       Examples.unknownVerbTag Examples.makefile
     = ([] ++ [LogTagFailed (func Examples.unknownVerbTag) Examples.makefile
                 (tagIndex Examples.unknownVerbTag)
                 (NoSuchInjectFunction (lit "foo"))],
        Thrown (NotAValidFilePath Examples.makefile))
  /\ parseAndReplace Examples.bare 2 Examples.unknownVerb Examples.makefile
     = ([] ++ [] ++ [LogTagFailed (func Examples.unknownVerbTag) Examples.makefile
                       (tagIndex Examples.unknownVerbTag)
                       (NoSuchInjectFunction (lit "foo"))],
        Thrown (NotAValidFilePath Examples.makefile)).
Proof.
  assert (H1 : tagsOf Examples.unknownVerb = [] ++ Examples.unknownVerbTag :: [])
    by (vm_compute; reflexivity).
  assert (H2 : forMatches Examples.bare (parseAndReplace Examples.bare 1) []
                 Examples.unknownVerb Examples.makefile
               = ([], Returned Examples.unknownVerb)) by reflexivity.
  assert (H3 : resolveTag Examples.bare (parseAndReplace Examples.bare 1)
                 Examples.unknownVerbTag Examples.makefile
               = ([], Thrown (NoSuchInjectFunction (lit "foo"))))
    by (vm_compute; reflexivity).
  assert (H4 : ~ extensionLike Examples.makefile).
  { intro Hx. apply extensionLike_exec in Hx. apply Hx. vm_compute. reflexivity. }
  split; [exact H1|]. split; [exact H2|]. split; [exact H3|]. split; [exact H4|].
  apply (C7_fallback_throws_through Examples.bare 1 Examples.unknownVerb
           Examples.makefile [] Examples.unknownVerbTag [] [] Examples.unknownVerb
           [] (NoSuchInjectFunction (lit "foo")) H1 H2 H3 H4).
Defined.

(** ** Nested tags *)


(** ** The inject verb *)

(** What [getFileContents] does, read off its text: the file read is
    [path.resolve(insertInto, getFrom)]. *)
Lemma getFileContents_reads host getFrom insertInto :
  getFileContents host getFrom insertInto
  = match fs_readFileSync host (path_resolve host insertInto getFrom) with
    | Some data =>
        ([LogInserting getFrom insertInto;
          AddDependency (path_resolve host insertInto getFrom)],
         Returned (trim data))
    | None =>
        ([LogInserting getFrom insertInto],
         Thrown (FailedToGetContents getFrom insertInto))
    end.
Proof.
  unfold getFileContents.
  destruct (fs_readFileSync host (path_resolve host insertInto getFrom));
    reflexivity.
Qed.

(** C1, at the README's input: [src/index.html] holds a tag for
    [./nav.html], and [src/nav.html] is there.  The loader resolves the
    path argument against the resource path itself, not against its
    directory, reads [src/index.html/nav.html], fails, and leaves the
    tag in a comment; no dependency is recorded. *)
Theorem C1_inject_resolves_against_resource_path :
  path_resolve Examples.readme Examples.indexHtml (lit "./nav.html")
  = lit "/repo/src/index.html/nav.html"
  /\ path_resolve Examples.readme (path_dirname Examples.readme Examples.indexHtml)
       (lit "./nav.html")
     = lit "/repo/src/nav.html"
  /\ fs_readFileSync Examples.readme (lit "/repo/src/nav.html")
     = Some (lit "<div>Home</div>" ++ [LF])
  /\ parseAndReplace Examples.readme 2 Examples.readmeTag Examples.indexHtml
     = ([LogInserting (lit "./nav.html") Examples.indexHtml;
         LogTagFailed (lit "inject") Examples.indexHtml 0
           (FailedToGetContents (lit "./nav.html") Examples.indexHtml)],
        Returned (lit "<!-- <webpack-inject src='./nav.html' /> -->")).
Proof. repeat split; vm_compute; reflexivity. Qed.

(** * Further properties *)

(** ** The tag pattern *)

(** X1.  Every match of the tag pattern has the text of a tag: an
    optional run of tabs and spaces that starts a line, [<webpack-], a
    verb of lower-case letters, [ src=], a quote, a path argument
    without U+0003, the same quote, white space, an optional slash and
    the closing bracket; the verb and the path argument are never
    empty, the whitespace group is that run or undefined, and the
    index is where the text stands in the document. *)
Theorem X1_match_is_a_tag (contents : str) (t : Tag) :
  In t (tagsOf contents) ->
  exists w f q a sp sl before after,
    wholeTag t = w ++ bodyText f q a sp sl
    /\ whitespace t = groupOf w
    /\ forallb isTabOrSpace w = true
    /\ func t = f /\ f <> [] /\ forallb isLower f = true
    /\ (q = DQUOTE \/ q = SQUOTE)
    /\ src t = a /\ a <> [] /\ forallb notU0003 a = true
    /\ forallb isSpace sp = true /\ (sl = [] \/ sl = [SLASH])
    /\ contents = before ++ wholeTag t ++ after
    /\ tagIndex t = length before
    /\ (w <> [] -> startsLine contents (tagIndex t)).
Proof. apply tagsOf_shape. Qed.

Lemma X1_match_is_a_tag_witness :
  In Examples.indentedTag (tagsOf Examples.indented)
  /\ exists w f q a sp sl before after,
       wholeTag Examples.indentedTag = w ++ bodyText f q a sp sl
       /\ whitespace Examples.indentedTag = groupOf w
       /\ forallb isTabOrSpace w = true
       /\ func Examples.indentedTag = f /\ f <> [] /\ forallb isLower f = true
       /\ (q = DQUOTE \/ q = SQUOTE)
       /\ src Examples.indentedTag = a /\ a <> [] /\ forallb notU0003 a = true
       /\ forallb isSpace sp = true /\ (sl = [] \/ sl = [SLASH])
       /\ Examples.indented = before ++ wholeTag Examples.indentedTag ++ after
       /\ tagIndex Examples.indentedTag = length before
       /\ (w <> [] -> startsLine Examples.indented (tagIndex Examples.indentedTag)).
Proof.
  assert (E : tagsOf Examples.indented = [Examples.indentedTag])
    by (vm_compute; reflexivity).
  assert (Hin : In Examples.indentedTag (tagsOf Examples.indented))
    by (rewrite E; left; reflexivity).
  split; [exact Hin|].
  apply (X1_match_is_a_tag Examples.indented Examples.indentedTag Hin).
Defined.

(** A text that is found is not reported missing. *)
Lemma indexOf_missing (s t a b : str) :
  indexOf s t = (-1)%Z -> s <> a ++ t ++ b.
Proof.
  intros H ->. destruct (indexOf_occurs a t b) as (i & _ & Hi). lia.
Qed.

Lemma no_webpack_no_tag (contents : str) :
  indexOf contents (lit "<webpack-") = (-1)%Z -> tagsOf contents = [].
Proof.
  intro H. destruct (tagsOf contents) as [|t ts] eqn:E; [reflexivity|].
  exfalso.
  assert (Hin : In t (tagsOf contents)) by (rewrite E; left; reflexivity).
  apply tagsOf_shape in Hin
    as (w & f & q & a & sp & sl & before & after & Hwhole & _ & _ & _ & _ & _ & _
        & _ & _ & _ & _ & _ & Hdoc & _).
  rewrite Hwhole in Hdoc. unfold bodyText in Hdoc.
  apply (indexOf_missing contents (lit "<webpack-") (before ++ w)
           (f ++ lit " src=" ++ [q] ++ a ++ [q] ++ sp ++ sl ++ [GT] ++ after) H).
  rewrite Hdoc. rewrite <- !app_assoc. reflexivity.
Qed.

(** X3.  A document in which [<webpack-] does not occur, that is one
    for which [contents.indexOf('<webpack-')] is -1, is returned as it
    is, whatever the host and the resource path: nothing is read,
    nothing is run and nothing is logged. *)
Theorem X3_without_webpack_unchanged (host : Host) (depth : nat)
        (contents resourcePath : str) :
  indexOf contents (lit "<webpack-") = (-1)%Z ->
  parseAndReplace host (S depth) contents resourcePath = ([], Returned contents).
Proof.
  intro H. cbn [parseAndReplace]. rewrite (no_webpack_no_tag contents H). reflexivity.
Qed.

Lemma X3_without_webpack_unchanged_witness :
  indexOf (lit "<p class='web'>pack</p>") (lit "<webpack-") = (-1)%Z
  /\ parseAndReplace Examples.bare 1 (lit "<p class='web'>pack</p>") Examples.makefile
     = ([], Returned (lit "<p class='web'>pack</p>")).
Proof.
  assert (H : indexOf (lit "<p class='web'>pack</p>") (lit "<webpack-") = (-1)%Z)
    by (vm_compute; reflexivity).
  split; [exact H|].
  apply (X3_without_webpack_unchanged Examples.bare 0 _ Examples.makefile H).
Defined.

(** ** The comment fallback, by the last dot *)



Lemma lacks_app (c : char) (a b : str) :
  lacks c (a ++ b) = lacks c a && lacks c b.
Proof. unfold lacks. apply forallb_app. Qed.






(** ** What a pass can throw *)

Lemma wrapInCommentSyntax_thrown (s resourcePath : str) (e : error) :
  snd (wrapInCommentSyntax s resourcePath) = Thrown e ->
  e = NotAValidFilePath resourcePath /\ ~ extensionLike resourcePath.
Proof.
  unfold wrapInCommentSyntax. intro H.
  destruct (exec extensionRegexp None resourcePath 0) as [[i y]|] eqn:E.
  - destruct (match captures y 1 with Some ext => _ | None => _ end); discriminate.
  - cbn in H. injection H as <-. split; [reflexivity|].
    intro Hx. apply extensionLike_exec in Hx. congruence.
Qed.

Lemma replacementOf_thrown host recur t resourcePath e :
  snd (replacementOf host recur t resourcePath) = Thrown e ->
  e = NotAValidFilePath resourcePath /\ ~ extensionLike resourcePath.
Proof.
  unfold replacementOf, tryCatch.
  destruct (resolveTag host recur t resourcePath) as [l [r|e0|]]; cbn [fst snd];
    try discriminate.
  cbn. apply wrapInCommentSyntax_thrown.
Qed.

Lemma forMatches_thrown host recur resourcePath e ms :
  forall doc,
  snd (forMatches host recur ms doc resourcePath) = Thrown e ->
  e = NotAValidFilePath resourcePath /\ ~ extensionLike resourcePath.
Proof.
  induction ms as [|t ms IH]; intros doc H; [discriminate|].
  cbn [forMatches] in H. unfold bind in H.
  destruct (replacementOf host recur t resourcePath) as [l [r|e0|]] eqn:E;
    cbn [fst snd] in H; try discriminate.
  - apply (IH _ H).
  - injection H as <-. apply (replacementOf_thrown host recur t resourcePath).
    rewrite E. reflexivity.
Qed.

(** X5.  The one error a pass can end with is that of the comment
    fallback, for the pass's own resource path: every other failure,
    also of a pass nested in it, is caught at its tag.  A pass over a
    resource whose path ends in a dot and three or four lower-case
    letters therefore never throws. *)
Theorem X5_only_the_fallback_throws (host : Host) (depth : nat)
        (contents resourcePath : str) (e : error) :
  snd (parseAndReplace host depth contents resourcePath) = Thrown e ->
  e = NotAValidFilePath resourcePath /\ ~ extensionLike resourcePath.
Proof.
  destruct depth as [|d]; [discriminate|]. cbn [parseAndReplace].
  apply forMatches_thrown.
Qed.

Lemma X5_only_the_fallback_throws_witness :
  snd (parseAndReplace Examples.bare 2 Examples.unknownVerb Examples.makefile)
  = Thrown (NotAValidFilePath Examples.makefile)
  /\ NotAValidFilePath Examples.makefile = NotAValidFilePath Examples.makefile
  /\ ~ extensionLike Examples.makefile.
Proof.
  assert (H : snd (parseAndReplace Examples.bare 2 Examples.unknownVerb
                     Examples.makefile)
              = Thrown (NotAValidFilePath Examples.makefile))
    by (vm_compute; reflexivity).
  split; [exact H|].
  apply (X5_only_the_fallback_throws Examples.bare 2 Examples.unknownVerb
           Examples.makefile _ H).
Defined.

(** ** The dependencies a pass records *)

Lemma recordedAfterRead_weaken host prev log :
  recordedAfterRead host None log -> recordedAfterRead host prev log.
Proof.
  destruct log as [|ev log]; [auto|]. cbn [recordedAfterRead].
  intros [H1 H2]. split; [|exact H2]. destruct ev; auto. contradiction.
Qed.

Lemma recordedAfterRead_app host log1 :
  forall prev log2,
  recordedAfterRead host prev log1 -> recordedAfterRead host None log2 ->
  recordedAfterRead host prev (log1 ++ log2).
Proof.
  induction log1 as [|ev log1 IH]; intros prev log2 H1 H2; cbn [app].
  - apply recordedAfterRead_weaken. exact H2.
  - cbn [recordedAfterRead] in *. destruct H1 as [Hev H1].
    split; [exact Hev | apply IH; assumption].
Qed.

Lemma recordsNothing_recordedAfterRead host log :
  Forall recordsNothing log -> forall prev, recordedAfterRead host prev log.
Proof.
  induction 1 as [|ev log Hev _ IH]; intro prev; cbn [recordedAfterRead]; [auto|].
  split; [|apply IH]. destruct ev; auto. contradiction.
Qed.

Lemma recordedAfterRead_bind {A B} host (m : M A) (f : A -> M B) :
  recordedAfterRead host None (fst m) ->
  (forall a, snd m = Returned a -> recordedAfterRead host None (fst (f a))) ->
  recordedAfterRead host None (fst (bind m f)).
Proof.
  intros Hm Hf. unfold bind. destruct m as [l [a|e|]]; cbn [fst snd] in *; auto.
  apply recordedAfterRead_app; [exact Hm | apply Hf; reflexivity].
Qed.

Lemma recordedAfterRead_tryCatch {A} host (m : M A) (h : error -> M A) :
  recordedAfterRead host None (fst m) ->
  (forall e, snd m = Thrown e -> recordedAfterRead host None (fst (h e))) ->
  recordedAfterRead host None (fst (tryCatch m h)).
Proof.
  intros Hm Hh. unfold tryCatch. destruct m as [l [a|e|]]; cbn [fst snd] in *; auto.
  apply recordedAfterRead_app; [exact Hm | apply Hh; reflexivity].
Qed.

Lemma getFileContents_recorded host getFrom insertInto :
  recordedAfterRead host None (fst (getFileContents host getFrom insertInto)).
Proof.
  rewrite getFileContents_reads.
  destruct (fs_readFileSync host (path_resolve host insertInto getFrom)) eqn:E;
    cbn [fst recordedAfterRead]; repeat split; auto.
  rewrite E. discriminate.
Qed.

(** The import verb records no dependency. *)
Lemma addImportStatements_records_nothing host pattern resourcePath :
  Forall recordsNothing (fst (addImportStatements host pattern resourcePath)).
Proof.
  unfold addImportStatements, findMatchingFiles.
  destruct (cp_execFileSync host _ _); cbn; [|constructor].
  destruct (Nat.eqb _ 0); cbn; repeat constructor.
Qed.

(** The verbs the registry knows, and its answer for every other. *)
Lemma getInjectorFunc_cases host func :
  (func = lit "inject" /\ getInjectorFunc host func = ret (getFileContents host))
  \/ (func = lit "import" /\ getInjectorFunc host func = ret (addImportStatements host))
  \/ (func <> lit "inject" /\ func <> lit "import"
      /\ getInjectorFunc host func = throw (NoSuchInjectFunction func)).
Proof.
  unfold getInjectorFunc.
  destruct (Str.eqb func (lit "inject")) eqn:E1.
  - left. apply str_eqb_eq in E1. auto.
  - destruct (Str.eqb func (lit "import")) eqn:E2.
    + right. left. apply str_eqb_eq in E2. auto.
    + right. right. repeat split; auto; intros ->;
        rewrite str_eqb_refl in *; discriminate.
Qed.

Lemma resolveTag_recorded host recur t resourcePath :
  (forall s p, recordedAfterRead host None (fst (recur s p))) ->
  recordedAfterRead host None (fst (resolveTag host recur t resourcePath)).
Proof.
  intro Hrec. unfold resolveTag.
  destruct (getInjectorFunc_cases host (func t))
    as [[_ ->]|[[_ ->]|(_ & _ & ->)]]; cbn [bind ret throw fst snd app];
    try exact I.
  - apply recordedAfterRead_bind; [apply getFileContents_recorded | intros; apply Hrec].
  - apply recordedAfterRead_bind; [|intros; apply Hrec].
    apply recordsNothing_recordedAfterRead, addImportStatements_records_nothing.
Qed.

Lemma wrapInCommentSyntax_silent s resourcePath :
  fst (wrapInCommentSyntax s resourcePath) = [].
Proof.
  unfold wrapInCommentSyntax.
  destruct (exec extensionRegexp None resourcePath 0) as [[i y]|]; [|reflexivity].
  destruct (match captures y 1 with Some ext => _ | None => _ end); reflexivity.
Qed.

Lemma replacementOf_recorded host recur t resourcePath :
  (forall s p, recordedAfterRead host None (fst (recur s p))) ->
  recordedAfterRead host None (fst (replacementOf host recur t resourcePath)).
Proof.
  intro Hrec. unfold replacementOf.
  apply recordedAfterRead_tryCatch; [apply resolveTag_recorded; exact Hrec|].
  intros e _. cbn [bind emit fst snd app].
  rewrite wrapInCommentSyntax_silent. cbn [recordedAfterRead]. auto.
Qed.

Lemma forMatches_recorded host recur resourcePath ms :
  (forall s p, recordedAfterRead host None (fst (recur s p))) ->
  forall doc,
  recordedAfterRead host None (fst (forMatches host recur ms doc resourcePath)).
Proof.
  intro Hrec. induction ms as [|t ms IH]; intro doc; cbn [forMatches].
  - exact I.
  - apply recordedAfterRead_bind; [apply replacementOf_recorded; exact Hrec|].
    intros r _. apply IH.
Qed.

(** X6.  Every dependency a pass records, at whatever depth of
    nesting, stands in the log right after the console line of an
    inject verb, is the path that line's arguments resolve to,
    [path.resolve(insertInto, getFrom)], and is a path the host reads:
    [addDependency] is only reached after [readFileSync] has returned,
    with the path that was read.  The import verb records no
    dependency. *)
Theorem X6_dependencies_were_read (host : Host) (depth : nat)
        (contents resourcePath : str) :
  recordedAfterRead host None (fst (parseAndReplace host depth contents resourcePath))
  /\ forall pattern importer,
       Forall recordsNothing (fst (addImportStatements host pattern importer)).
Proof.
  split; [|intros; apply addImportStatements_records_nothing].
  revert contents resourcePath.
  induction depth as [|d IH]; intros contents resourcePath.
  - exact I.
  - cbn [parseAndReplace]. apply forMatches_recorded. exact IH.
Qed.

(** ** What the inject verb returns *)

Lemma trimStart_head (s : str) :
  match trimStart s with [] => True | c :: _ => isSpace c = false end.
Proof.
  induction s as [|c s IH]; [exact I|]. cbn [trimStart].
  destruct (isSpace c) eqn:E; [exact IH | exact E].
Qed.

Lemma trimStart_keeps_last (l : str) (c : char) :
  isSpace c = false -> exists l', trimStart (l ++ [c]) = l' ++ [c].
Proof.
  intro Hc. induction l as [|d l IH]; cbn [app trimStart].
  - rewrite Hc. exists []. reflexivity.
  - destruct (isSpace d); [exact IH|]. exists (d :: l). reflexivity.
Qed.

Lemma trim_trimmed (s : str) : trimmed (trim s).
Proof.
  unfold trimmed, trim, trimEnd. rewrite rev_involutive. split.
  - pose proof (trimStart_head s) as Hhead.
    destruct (trimStart s) as [|c u]; [exact I|].
    cbn [rev]. destruct (trimStart_keeps_last (rev u) c Hhead) as [l' ->].
    rewrite rev_app_distr. exact Hhead.
  - apply trimStart_head.
Qed.

(** X7.  When the inject verb returns, the text it returns is the
    file's contents without the white space and line terminators at
    its two ends, the file is the one at
    [path.resolve(insertInto, getFrom)], and that path is the one
    dependency recorded, after the console line. *)
Theorem X7_inject_returns_trimmed (host : Host) (getFrom insertInto : str)
        (log : list event) (text : str) :
  getFileContents host getFrom insertInto = (log, Returned text) ->
  trimmed text
  /\ (exists data,
       fs_readFileSync host (path_resolve host insertInto getFrom) = Some data
       /\ text = trim data)
  /\ log = [LogInserting getFrom insertInto;
            AddDependency (path_resolve host insertInto getFrom)].
Proof.
  rewrite getFileContents_reads.
  destruct (fs_readFileSync host (path_resolve host insertInto getFrom)) as [data|];
    [|discriminate].
  intro H. injection H as <- <-.
  split; [apply trim_trimmed|]. split; [|reflexivity].
  exists data. auto.
Qed.

Lemma X7_inject_returns_trimmed_witness :
  getFileContents Examples.navbar (lit "/repo/nav.html") Examples.indexHtml
  = ([LogInserting (lit "/repo/nav.html") Examples.indexHtml;
      AddDependency (lit "/repo/nav.html")],
     Returned (lit "<div id='navbar'>" ++ [LF] ++ lit "  <div>Home</div>"
               ++ [LF] ++ lit "</div>"))
  /\ trimmed (lit "<div id='navbar'>" ++ [LF] ++ lit "  <div>Home</div>"
              ++ [LF] ++ lit "</div>")
  /\ (exists data,
       fs_readFileSync Examples.navbar
         (path_resolve Examples.navbar Examples.indexHtml (lit "/repo/nav.html"))
       = Some data
       /\ lit "<div id='navbar'>" ++ [LF] ++ lit "  <div>Home</div>"
          ++ [LF] ++ lit "</div>" = trim data)
  /\ [LogInserting (lit "/repo/nav.html") Examples.indexHtml;
      AddDependency (lit "/repo/nav.html")]
     = [LogInserting (lit "/repo/nav.html") Examples.indexHtml;
        AddDependency
          (path_resolve Examples.navbar Examples.indexHtml (lit "/repo/nav.html"))].
Proof.
  assert (H : getFileContents Examples.navbar (lit "/repo/nav.html") Examples.indexHtml
              = ([LogInserting (lit "/repo/nav.html") Examples.indexHtml;
                  AddDependency (lit "/repo/nav.html")],
                 Returned (lit "<div id='navbar'>" ++ [LF] ++ lit "  <div>Home</div>"
                           ++ [LF] ++ lit "</div>")))
    by (vm_compute; reflexivity).
  split; [exact H|].
  apply (X7_inject_returns_trimmed Examples.navbar (lit "/repo/nav.html")
           Examples.indexHtml _ _ H).
Defined.

(** ** Indentation, line by line *)

Lemma afterTerminators_app (w a b : str) :
  afterTerminators w (a ++ b) = afterTerminators w a ++ afterTerminators w b.
Proof.
  induction a as [|c a IH]; [reflexivity|]. cbn [app afterTerminators].
  rewrite IH, <- app_assoc. reflexivity.
Qed.

Lemma indent_group (c : char) (w r : str) :
  indent (Some (c :: w)) r = (c :: w) ++ afterTerminators (c :: w) r.
Proof.
  unfold indent. cbn [truthy]. unfold replaceAll.
  rewrite replaceAllFrom_lineStart. reflexivity.
Qed.

(** X8.  Indenting works line by line: the indented text of two
    pieces joined by a line terminator is the indented pieces joined
    by it.  So the whitespace also goes between the CR and the LF of a
    Windows line end, and an empty replacement leaves the whitespace
    of its tag in the document. *)
Theorem X8_indent_line_by_line (w a b : str) (t : char) :
  w <> [] ->
  isLineTerminator t = true ->
  indent (Some w) (a ++ t :: b) = indent (Some w) a ++ t :: indent (Some w) b
  /\ indent (Some w) (a ++ CR :: LF :: b)
     = indent (Some w) a ++ CR :: w ++ LF :: indent (Some w) b
  /\ indent (Some w) [] = w.
Proof.
  intros Hw Ht. destruct w as [|c w]; [congruence|].
  rewrite !indent_group, !afterTerminators_app. cbn [afterTerminators].
  rewrite Ht. change (isLineTerminator CR) with true.
  change (isLineTerminator LF) with true. cbn [app].
  rewrite <- !app_assoc, app_nil_r. repeat split.
Qed.

Lemma X8_indent_line_by_line_witness :
  lit "  " <> []
  /\ isLineTerminator LF = true
  /\ indent (Some (lit "  ")) (lit "a" ++ LF :: lit "b")
     = indent (Some (lit "  ")) (lit "a") ++ LF :: indent (Some (lit "  ")) (lit "b")
  /\ indent (Some (lit "  ")) (lit "a" ++ CR :: LF :: lit "b")
     = indent (Some (lit "  ")) (lit "a")
       ++ CR :: lit "  " ++ LF :: indent (Some (lit "  ")) (lit "b")
  /\ indent (Some (lit "  ")) [] = lit "  ".
Proof.
  assert (H1 : lit "  " <> []) by discriminate.
  assert (H2 : isLineTerminator LF = true) by reflexivity.
  split; [exact H1|]. split; [exact H2|].
  apply (X8_indent_line_by_line (lit "  ") (lit "a") (lit "b") LF H1 H2).
Defined.

(** ** The order of the matches *)





(** ** The matcher, run forward

    Where the text ahead is known, the matcher's choices are: a
    literal is taken, a greedy quantifier takes the longest run first
    and gives units back one by one while the continuation fails. *)

Lemma Lit_forward (t : str) :
  forall (c : Continuation) p s e cap,
  matcher (Lit t) (mkState p (t ++ s) e cap) c = c (after t p s e cap).
Proof.
  unfold after. induction t as [|a t IH]; intros c p s e cap.
  - cbn. rewrite Nat.add_0_r. reflexivity.
  - destruct t as [|b t].
    + cbn [Lit matcher charSetMatcher rest app]. rewrite char_eqb_refl.
      cbn [prev endIndex captures length]. rewrite Nat.add_1_r. reflexivity.
    + change (Lit (a :: b :: t)) with (Seq (Chr a) (Lit (b :: t))).
      change ((a :: b :: t) ++ s) with (a :: ((b :: t) ++ s)).
      cbn [matcher charSetMatcher rest]. rewrite char_eqb_refl.
      cbn [prev endIndex captures]. rewrite (IH c (Some a) s (S e) cap).
      rewrite (unitBefore_cons p a (b :: t)).
      replace (e + length (a :: b :: t)) with (S e + length (b :: t))
        by (cbn [length]; lia).
      reflexivity.
Qed.

(** No split of the run lets the continuation through: no match. *)
Lemma repeatMatcher_all_fail cls (c : Continuation) cap s' extra :
  forall min p e,
  forallb cls extra = true -> stopsAt cls s' ->
  (forall k, k <= length extra ->
     c (after (firstn k extra) p (skipn k extra ++ s') e cap) = None) ->
  repeatMatcher cls min None (extra ++ s') p e cap c = None.
Proof.
  unfold after. induction extra as [|x extra IH]; intros min p e Hall Hstop Hfail.
  - pose proof (Hfail 0 (Nat.le_refl 0)) as H0. cbn in H0. rewrite Nat.add_0_r in H0.
    cbn [app]. destruct s' as [|ch s'].
    + cbn. destruct min; [exact H0 | reflexivity].
    + cbn in Hstop. cbn [repeatMatcher option_map]. rewrite Hstop.
      destruct min; [exact H0 | reflexivity].
  - cbn [forallb] in Hall. apply andb_true_iff in Hall as [Hx Hall].
    cbn [app repeatMatcher option_map]. rewrite Hx.
    rewrite (IH (pred min) (Some x) (S e) Hall Hstop).
    + pose proof (Hfail 0 (Nat.le_0_l _)) as H0. cbn in H0.
      rewrite Nat.add_0_r in H0. destruct min; [exact H0 | reflexivity].
    + intros k Hk. specialize (Hfail (S k) ltac:(cbn; lia)).
      cbn [firstn skipn length] in Hfail. rewrite unitBefore_cons in Hfail.
      rewrite Nat.add_succ_r in Hfail. exact Hfail.
Qed.

(** The continuation lets the split after [run] through and no later
    one: the match is the one after [run]. *)
Lemma repeatMatcher_backtrack cls (c : Continuation) cap s' extra z run :
  forall min p e,
  forallb cls (run ++ extra) = true -> stopsAt cls s' ->
  min <= length run ->
  c (after run p (extra ++ s') e cap) = Some z ->
  (forall k, 0 < k -> k <= length extra ->
     c (after (run ++ firstn k extra) p (skipn k extra ++ s') e cap) = None) ->
  repeatMatcher cls min None (run ++ extra ++ s') p e cap c = Some z.
Proof.
  unfold after. induction run as [|r0 run IH]; intros min p e Hall Hstop Hmin Hz Hfail.
  - cbn [length] in Hmin. assert (min = 0) by lia. subst min.
    cbn in Hz. rewrite Nat.add_0_r in Hz. cbn [app] in *.
    destruct extra as [|x extra].
    + cbn [app]. destruct s' as [|ch s'].
      * cbn. exact Hz.
      * cbn in Hstop. cbn [repeatMatcher option_map]. rewrite Hstop. exact Hz.
    + cbn [forallb] in Hall. apply andb_true_iff in Hall as [Hx Hall].
      cbn [app repeatMatcher option_map]. rewrite Hx.
      rewrite (repeatMatcher_all_fail cls c cap s' extra (pred 0) (Some x) (S e)
                 Hall Hstop); [exact Hz|].
      intros k Hk. specialize (Hfail (S k) ltac:(lia) ltac:(cbn; lia)).
      unfold after. cbn [firstn skipn length] in Hfail.
      rewrite unitBefore_cons in Hfail. rewrite Nat.add_succ_r in Hfail.
      exact Hfail.
  - cbn [app forallb] in Hall. apply andb_true_iff in Hall as [Hr Hall].
    cbn [app repeatMatcher option_map]. rewrite Hr.
    rewrite (IH (pred min) (Some r0) (S e) Hall Hstop).
    + destruct min; reflexivity.
    + cbn [length] in Hmin. lia.
    + rewrite unitBefore_cons in Hz. cbn [length] in Hz.
      rewrite Nat.add_succ_r in Hz. exact Hz.
    + intros k Hk0 Hk. specialize (Hfail k Hk0 Hk). cbn [app] in Hfail.
      rewrite unitBefore_cons in Hfail. cbn [length] in Hfail.
      rewrite Nat.add_succ_r in Hfail. exact Hfail.
Qed.

(** The longest run is the first choice. *)
Lemma repeatMatcher_greedy cls (c : Continuation) cap s' z run min p e :
  forallb cls run = true -> stopsAt cls s' ->
  min <= length run ->
  c (after run p s' e cap) = Some z ->
  repeatMatcher cls min None (run ++ s') p e cap c = Some z.
Proof.
  intros Hall Hstop Hmin Hz.
  apply (repeatMatcher_backtrack cls c cap s' [] z run min p e); auto.
  - rewrite app_nil_r. exact Hall.
  - cbn [length]. intros k Hk0 Hk. lia.
Qed.

(** A text is a run of the class and a text that stops it. *)
Lemma span_class (cls : char -> bool) (s : str) :
  exists run s', s = run ++ s' /\ forallb cls run = true /\ stopsAt cls s'.
Proof.
  induction s as [|c s (run & s' & -> & Hall & Hstop)].
  - exists [], []. repeat split.
  - destruct (cls c) eqn:E.
    + exists (c :: run), s'. cbn [forallb]. rewrite E, Hall. repeat split. exact Hstop.
    + exists [], (c :: run ++ s'). repeat split. exact E.
Qed.

Lemma firstn_after (e : nat) (run s : str) :
  firstn (e + length run - e) (run ++ s) = run.
Proof.
  replace (e + length run - e) with (length run + 0) by lia.
  rewrite firstn_app_2. cbn. apply app_nil_r.
Qed.

Lemma lacks_startsWith (q : char) (s : str) :
  lacks q s = true -> startsWith [q] s = false.
Proof.
  destruct s as [|c s]; [reflexivity|]. unfold lacks. cbn [forallb startsWith].
  intro H. apply andb_true_iff in H as [H _].
  destruct (char_eqb q c) eqn:E; [|reflexivity].
  apply char_eqb_eq in E. subst c. rewrite char_eqb_refl in H. discriminate.
Qed.

Lemma lacks_skipn (q : char) (k : nat) :
  forall s, lacks q s = true -> lacks q (skipn k s) = true.
Proof.
  induction k as [|k IH]; intros [|c s] H; cbn [skipn]; auto.
  apply IH. unfold lacks in *. cbn [forallb] in H.
  apply andb_true_iff in H as [_ H]. exact H.
Qed.

Lemma isSpace_not_quote (q : char) (sp : str) :
  q = DQUOTE \/ q = SQUOTE -> forallb isSpace sp = true -> lacks q sp = true.
Proof.
  intros Hq H. unfold lacks. apply forallb_forall. intros c Hc.
  rewrite forallb_forall in H. specialize (H c Hc).
  destruct (char_eqb c q) eqn:E; [|reflexivity].
  apply char_eqb_eq in E. subst c. destruct Hq as [-> | ->]; discriminate.
Qed.

Lemma isSpace_notU0003 (sp : str) :
  forallb isSpace sp = true -> forallb notU0003 sp = true.
Proof.
  intro H. apply forallb_forall. intros c Hc.
  rewrite forallb_forall in H. specialize (H c Hc). unfold notU0003.
  destruct (char_eqb c 3%N) eqn:E; [|reflexivity].
  apply char_eqb_eq in E. subst c. discriminate.
Qed.

(** The closing quote, the white space, the optional slash and the
    bracket are taken when they are there. *)
Lemma closing_forward (q : char) (sp sl post : str) p e cap :
  cap 3 = Some [q] ->
  forallb isSpace sp = true -> (sl = [] \/ sl = [SLASH]) ->
  matcher closing (mkState p (q :: sp ++ sl ++ GT :: post) e cap) Some
  = Some (mkState (Some GT) post (e + (1 + length sp + length sl + 1)) cap).
Proof.
  intros Hcap Hsp Hsl. unfold closing, seq. cbn [fold_right matcher captures rest].
  rewrite Hcap. cbn [startsWith]. rewrite char_eqb_refl.
  cbn [andb length advanceBy rest prev endIndex captures].
  apply repeatMatcher_greedy; [exact Hsp | | lia |].
  - destruct Hsl as [-> | ->]; reflexivity.
  - unfold after. cbn [rest prev endIndex captures].
    destruct Hsl as [-> | ->];
      cbn [app repeatMatcher option_map pred charSetMatcher rest prev endIndex
           captures length];
      cbn; repeat f_equal; lia.
Qed.

(** Without the closing quote ahead there is no match. *)
Lemma closing_fail (q : char) (s : str) p e cap :
  cap 3 = Some [q] -> startsWith [q] s = false ->
  matcher closing (mkState p s e cap) Some = None.
Proof.
  intros Hcap Hs. unfold closing, seq. cbn [fold_right matcher captures rest].
  rewrite Hcap, Hs. reflexivity.
Qed.

(** The path argument runs to the last closing quote the text has;
    with no quote of the kind after the tag's own, that is the tag's. *)
Lemma pathPart_forward (q : char) (a sp sl post : str) p e cap :
  cap 3 = Some [q] -> (q = DQUOTE \/ q = SQUOTE) ->
  a <> [] -> forallb notU0003 a = true ->
  forallb isSpace sp = true -> (sl = [] \/ sl = [SLASH]) ->
  lacks q post = true ->
  matcher pathPart (mkState p (a ++ q :: sp ++ sl ++ GT :: post) e cap) Some
  = Some (mkState (Some GT) post
            (e + length a + (1 + length sp + length sl + 1))
            (setCapture 4 (Some a) cap)).
Proof.
  intros Hcap Hq Ha Hau Hsp Hsl Hpost.
  destruct (span_class notU0003 post) as (post1 & s' & -> & Hpost1 & Hstop).
  rewrite lacks_app in Hpost. apply andb_true_iff in Hpost as [Hl1 Hl'].
  set (tail := sp ++ sl ++ GT :: post1).
  assert (Htail : lacks q (tail ++ s') = true).
  { unfold tail. rewrite !lacks_app, (isSpace_not_quote q sp Hq Hsp).
    unfold lacks at 2. cbn [forallb]. fold (lacks q post1). rewrite Hl1, Hl'.
    destruct Hq as [-> | ->]; destruct Hsl as [-> | ->]; reflexivity. }
  replace (a ++ q :: sp ++ sl ++ GT :: post1 ++ s')
    with (a ++ (q :: tail) ++ s')
    by (unfold tail; cbn [app]; rewrite <- !app_assoc; reflexivity).
  unfold pathPart. cbn [matcher rest prev endIndex captures].
  apply repeatMatcher_backtrack.
  - rewrite forallb_app, Hau. unfold tail. cbn [forallb andb].
    rewrite !forallb_app, (isSpace_notU0003 sp Hsp). cbn [forallb]. rewrite Hpost1.
    destruct Hq as [-> | ->]; destruct Hsl as [-> | ->]; reflexivity.
  - exact Hstop.
  - destruct a; [congruence | cbn; lia].
  - unfold after, withCaptures. cbn [rest prev endIndex captures].
    rewrite firstn_after.
    replace ((q :: tail) ++ s') with (q :: sp ++ sl ++ GT :: post1 ++ s')
      by (unfold tail; cbn [app]; rewrite <- !app_assoc; reflexivity).
    rewrite closing_forward; [reflexivity | | exact Hsp | exact Hsl].
    cbn [setCapture Nat.eqb]. exact Hcap.
  - intros k Hk0 Hk. unfold after, withCaptures. cbn [rest prev endIndex captures].
    apply (closing_fail q); [cbn [setCapture Nat.eqb]; exact Hcap|].
    apply lacks_startsWith. destruct k as [|k]; [lia|]. cbn [skipn].
    rewrite lacks_app. rewrite lacks_app in Htail.
    apply andb_true_iff in Htail as [Ht Hs'].
    rewrite (lacks_skipn q k tail Ht), Hs'. reflexivity.
Qed.

Lemma quotePart_forward (q : char) (a sp sl post : str) p e cap :
  (q = DQUOTE \/ q = SQUOTE) ->
  a <> [] -> forallb notU0003 a = true ->
  forallb isSpace sp = true -> (sl = [] \/ sl = [SLASH]) ->
  lacks q post = true ->
  matcher quotePart (mkState p (q :: a ++ q :: sp ++ sl ++ GT :: post) e cap) Some
  = Some (mkState (Some GT) post
            (S e + length a + (1 + length sp + length sl + 1))
            (setCapture 4 (Some a) (setCapture 3 (Some [q]) cap))).
Proof.
  intros Hq Ha Hau Hsp Hsl Hpost. unfold quotePart.
  assert (Hstep : forall p',
    matcher pathPart
      (mkState p' (a ++ q :: sp ++ sl ++ GT :: post) (S e)
         (setCapture 3
            (Some (firstn (S e - e) (q :: a ++ q :: sp ++ sl ++ GT :: post))) cap))
      Some
    = Some (mkState (Some GT) post
              (S e + length a + (1 + length sp + length sl + 1))
              (setCapture 4 (Some a) (setCapture 3 (Some [q]) cap)))).
  { intro p'. replace (S e - e) with 1 by lia. cbn [firstn].
    apply pathPart_forward; auto. }
  cbn [matcher charSetMatcher rest prev endIndex captures].
  destruct Hq as [-> | ->].
  - rewrite char_eqb_refl. unfold withCaptures. cbn [rest prev endIndex captures].
    rewrite Hstep. reflexivity.
  - change (char_eqb DQUOTE SQUOTE) with false. rewrite char_eqb_refl.
    unfold withCaptures. cbn [rest prev endIndex captures]. rewrite Hstep. reflexivity.
Qed.

Lemma verbPart_forward (f : str) (q : char) (a sp sl post : str) p e cap :
  f <> [] -> forallb isLower f = true ->
  (q = DQUOTE \/ q = SQUOTE) ->
  a <> [] -> forallb notU0003 a = true ->
  forallb isSpace sp = true -> (sl = [] \/ sl = [SLASH]) ->
  lacks q post = true ->
  exists y,
    matcher verbPart
      (mkState p (f ++ lit " src=" ++ q :: a ++ q :: sp ++ sl ++ GT :: post) e cap)
      Some = Some y
    /\ rest y = post
    /\ endIndex y
       = e + (length f + 5 + 1 + length a + 1 + length sp + length sl + 1)
    /\ captures y = setCapture 4 (Some a)
                      (setCapture 3 (Some [q]) (setCapture 2 (Some f) cap)).
Proof.
  intros Hf Hfl Hq Ha Hau Hsp Hsl Hpost.
  eexists. split.
  - unfold verbPart. cbn [matcher rest prev endIndex captures].
    apply repeatMatcher_greedy; [exact Hfl | reflexivity | |].
    + destruct f; [congruence | cbn; lia].
    + unfold after, withCaptures. cbn [rest prev endIndex captures].
      rewrite firstn_after. unfold srcPart. cbn [matcher].
      rewrite Lit_forward. unfold after.
      apply quotePart_forward; auto.
  - cbn [rest endIndex captures]. change (length (lit " src=")) with 5.
    repeat split. lia.
Qed.

Lemma bodyText_app (f : str) (q : char) (a sp sl post : str) :
  bodyText f q a sp sl ++ post
  = lit "<webpack-" ++ f ++ lit " src=" ++ q :: a ++ q :: sp ++ sl ++ GT :: post.
Proof. unfold bodyText. rewrite <- !app_assoc. reflexivity. Qed.

Lemma bodyText_length (f : str) (q : char) (a sp sl : str) :
  length (bodyText f q a sp sl)
  = 9 + (length f + 5 + 1 + length a + 1 + length sp + length sl + 1).
Proof.
  unfold bodyText. rewrite !length_app.
  change (length (lit "<webpack-")) with 9. change (length (lit " src=")) with 5.
  cbn [length]. lia.
Qed.

Lemma tagBody_forward (f : str) (q : char) (a sp sl post : str) p e cap :
  f <> [] -> forallb isLower f = true ->
  (q = DQUOTE \/ q = SQUOTE) ->
  a <> [] -> forallb notU0003 a = true ->
  forallb isSpace sp = true -> (sl = [] \/ sl = [SLASH]) ->
  lacks q post = true ->
  exists y,
    matcher tagBody (mkState p (bodyText f q a sp sl ++ post) e cap) Some = Some y
    /\ rest y = post
    /\ endIndex y = e + length (bodyText f q a sp sl)
    /\ captures y = setCapture 4 (Some a)
                      (setCapture 3 (Some [q]) (setCapture 2 (Some f) cap)).
Proof.
  intros Hf Hfl Hq Ha Hau Hsp Hsl Hpost.
  destruct (verbPart_forward f q a sp sl post (unitBefore p (lit "<webpack-"))
              (e + 9) cap Hf Hfl Hq Ha Hau Hsp Hsl Hpost)
    as (y & Hy & Hrest & Hend & Hcap).
  exists y. split; [|split; [exact Hrest | split; [|exact Hcap]]].
  - change tagBody with (Seq (Lit (lit "<webpack-")) verbPart).
    rewrite bodyText_app. cbn [matcher]. rewrite Lit_forward. exact Hy.
  - rewrite Hend, bodyText_length. lia.
Qed.

(** A tag that stands where the matcher is, at a line start if it has
    leading tabs or spaces, and with no quote of its kind after it, is
    matched as it stands. *)
Lemma matchHere_tag (w f : str) (q : char) (a sp sl post : str) p i :
  forallb isTabOrSpace w = true ->
  (w <> [] -> atLineStart (mkState p [] 0 noCaptures) = true) ->
  f <> [] -> forallb isLower f = true ->
  (q = DQUOTE \/ q = SQUOTE) ->
  a <> [] -> forallb notU0003 a = true ->
  forallb isSpace sp = true -> (sl = [] \/ sl = [SLASH]) ->
  lacks q post = true ->
  exists y,
    matchHere regexp p (w ++ bodyText f q a sp sl ++ post) i = Some y
    /\ endIndex y = i + length (w ++ bodyText f q a sp sl)
    /\ captures y 1 = groupOf w
    /\ captures y 2 = Some f
    /\ captures y 4 = Some a.
Proof.
  intros Hw Hstart Hf Hfl Hq Ha Hau Hsp Hsl Hpost.
  unfold matchHere. rewrite regexp_parts. cbn [matcher].
  unfold withCaptures. cbn [prev rest endIndex captures groupsOf leading app].
  destruct w as [|c w].
  - destruct (tagBody_forward f q a sp sl post p i noCaptures
                Hf Hfl Hq Ha Hau Hsp Hsl Hpost)
      as (y & Hy & _ & Hend & Hcap).
    exists y. cbn [app length]. split; [|split; [exact Hend|]].
    + rewrite Hy.
      assert (Hnone : forall d cap,
        matcher leading (mkState p (bodyText f q a sp sl ++ post) i cap)
          (fun y0 => if Nat.eqb (endIndex y0) i then None else d y0) = None).
      { intros d cap. unfold leading. cbn [matcher]. rewrite bodyText_app.
        change (lit "<webpack-") with (LT :: lit "webpack-").
        destruct (atLineStart _); [|reflexivity].
        cbn [app rest prev endIndex captures repeatMatcher option_map].
        change (isTabOrSpace LT) with false. unfold withCaptures.
        cbn [endIndex]. rewrite Nat.eqb_refl. reflexivity. }
      rewrite Hnone. reflexivity.
    + rewrite Hcap. repeat split.
  - specialize (Hstart ltac:(discriminate)).
    destruct (tagBody_forward f q a sp sl post (unitBefore p (c :: w))
                (i + length (c :: w))
                (setCapture 1 (Some (c :: w)) (clearCaptures [1] noCaptures))
                Hf Hfl Hq Ha Hau Hsp Hsl Hpost)
      as (y & Hy & _ & Hend & Hcap).
    exists y. split; [|split].
    + assert (Hsome :
        matcher leading
          (mkState p ((c :: w) ++ bodyText f q a sp sl ++ post) i
             (clearCaptures [1] noCaptures))
          (fun y0 => if Nat.eqb (endIndex y0) i then None
                     else matcher tagBody y0 Some) = Some y).
      { unfold leading. cbn [matcher].
        unfold atLineStart in *. cbn [prev] in *. rewrite Hstart.
        cbn [rest prev endIndex captures].
        apply repeatMatcher_greedy; [exact Hw | | lia |].
        - rewrite bodyText_app. reflexivity.
        - unfold after, withCaptures. cbn [rest prev endIndex captures].
          rewrite firstn_after.
          destruct (Nat.eqb_spec (i + length (c :: w)) i) as [Heq|_];
            [cbn [length] in Heq; lia|].
          exact Hy. }
      match goal with
      | |- context [matcher leading ?x ?d] =>
          assert (E : matcher leading x d = Some y) by exact Hsome; rewrite E
      end.
      reflexivity.
    + rewrite Hend, length_app. lia.
    + rewrite Hcap. repeat split.
Qed.

(** ** A tag on a line of its own *)

Lemma lineTerminator_not_blank (c : char) :
  isLineTerminator c = true -> isTabOrSpace c = false.
Proof.
  intro H. unfold isTabOrSpace.
  destruct (char_eqb c TAB) eqn:E1; [apply char_eqb_eq in E1; subst; discriminate|].
  destruct (char_eqb c SPACE) eqn:E2; [apply char_eqb_eq in E2; subst; discriminate|].
  reflexivity.
Qed.

(** A unit inside [<webpack-], after its first, is neither the bracket
    nor a tab or space. *)
Lemma webpack_inner (l : str) (c0 : char) (l2 : str) :
  lit "<webpack-" = l ++ c0 :: l2 -> l <> [] ->
  c0 <> LT /\ isTabOrSpace c0 = false.
Proof.
  intros H Hl. destruct l as [|x l]; [congruence|].
  do 9 (destruct l as [|? l];
        [cbn in H; inversion H; subst; try (split; [discriminate | reflexivity])|]).
  cbn in H. inversion H.
Qed.

(** The text before a tag on its own line holds no [<webpack-]: the
    text of a tag cannot start in it. *)
Lemma tag_text_not_before (pre1 pre2 w w' X Y : str) :
  indexOf (pre1 ++ pre2) (lit "<webpack-") = (-1)%Z ->
  pre2 <> [] ->
  lineStartAfter (pre1 ++ pre2) ->
  forallb isTabOrSpace w = true -> forallb isTabOrSpace w' = true ->
  pre2 ++ w ++ lit "<webpack-" ++ X = w' ++ lit "<webpack-" ++ Y ->
  False.
Proof.
  intros Hidx Hne Hline Hw Hw' Heq.
  assert (Hlast : exists l c, pre2 = l ++ [c] /\ isTabOrSpace c = false).
  { destruct Hline as [Hnil | (b & c & Hb & Hc)].
    - apply app_eq_nil in Hnil as [_ Hnil]. congruence.
    - destruct pre2 as [|x l] using rev_ind; [congruence|].
      rewrite app_assoc in Hb. apply app_inj_tail in Hb as [_ ->].
      exists l, c. split; [reflexivity | apply lineTerminator_not_blank; exact Hc]. }
  destruct Hlast as (l0 & c & Hpre2 & Hc).
  assert (Hblank : forall u, forallb isTabOrSpace (pre2 ++ u) = true -> False).
  { intros u Hu. rewrite Hpre2, <- app_assoc, !forallb_app in Hu.
    apply andb_true_iff in Hu as [_ Hu]. cbn [app forallb] in Hu.
    rewrite Hc in Hu. discriminate. }
  apply app_eq_app in Heq as (l & [[Hp Hr] | [Hp Hr]]).
  - destruct l as [|x l].
    + rewrite app_nil_r in Hp. apply (Hblank []). rewrite app_nil_r, Hp. exact Hw'.
    + symmetry in Hr. apply app_eq_app in Hr as (l2 & [[Hl HR] | [Hl HR]]).
      * (* the bracket and what follows it are all in [pre2] *)
        apply (indexOf_missing _ _ (pre1 ++ w') l2 Hidx).
        rewrite Hp, Hl, <- !app_assoc. reflexivity.
      * destruct l2 as [|c0 l2].
        -- apply (indexOf_missing _ _ (pre1 ++ w') [] Hidx).
           rewrite app_nil_r in Hl. rewrite Hp, <- Hl, <- !app_assoc, app_nil_r.
           reflexivity.
        -- destruct (webpack_inner (x :: l) c0 l2 Hl ltac:(discriminate))
             as [Hlt Hb0].
           destruct w as [|c1 w]; cbn [app] in HR.
           ++ change (lit "<webpack-") with (LT :: lit "webpack-") in HR.
              injection HR as HR _. congruence.
           ++ injection HR as HR _. subst c1. cbn [forallb] in Hw.
              rewrite Hb0 in Hw. discriminate.
  - apply (Hblank l). rewrite <- Hp. exact Hw'.
Qed.

Lemma matchAllFrom_no_webpack (s : str) :
  indexOf s (lit "<webpack-") = (-1)%Z ->
  forall p i covered, matchAllFrom regexp p s i covered = [].
Proof.
  intros H p i covered.
  destruct (matchAllFrom regexp p s i covered) as [|m ms] eqn:E; [reflexivity|].
  exfalso.
  assert (Hin : In m (matchAllFrom regexp p s i covered))
    by (rewrite E; left; reflexivity).
  apply matchAllFrom_In in Hin as (before & s' & y & -> & Hm & _).
  apply regexp_match_shape in Hm as (w & f & q & a & sp & sl & _ & Hs & _).
  apply (indexOf_missing _ _ (before ++ w)
           (f ++ lit " src=" ++ [q] ++ a ++ [q] ++ sp ++ sl ++ [GT] ++ rest y) H).
  rewrite Hs. unfold bodyText. rewrite <- !app_assoc. reflexivity.
Qed.

(** The walk steps over the units a match has covered. *)
Lemma matchAllFrom_covered r (u : str) :
  forall p v i,
  matchAllFrom r p (u ++ v) i (length u)
  = matchAllFrom r (unitBefore p u) v (i + length u) 0.
Proof.
  induction u as [|c u IH]; intros p v i.
  - cbn. rewrite Nat.add_0_r. reflexivity.
  - cbn [app length matchAllFrom]. rewrite IH, unitBefore_cons.
    rewrite Nat.add_succ_r. reflexivity.
Qed.

Lemma unitBefore_last p (b : str) (c : char) : unitBefore p (b ++ [c]) = Some c.
Proof. unfold unitBefore. rewrite map_app. cbn [map]. apply last_last. Qed.

Lemma tag_on_its_line_from (w f : str) (q : char) (a sp sl post : str) (pre2 : str) :
  forall pre1,
  indexOf (pre1 ++ pre2) (lit "<webpack-") = (-1)%Z ->
  lineStartAfter (pre1 ++ pre2) ->
  forallb isTabOrSpace w = true ->
  f <> [] -> forallb isLower f = true ->
  (q = DQUOTE \/ q = SQUOTE) ->
  a <> [] -> forallb notU0003 a = true ->
  forallb isSpace sp = true -> (sl = [] \/ sl = [SLASH]) ->
  lacks q post = true ->
  indexOf post (lit "<webpack-") = (-1)%Z ->
  map destructure
    (matchAllFrom regexp (unitBefore None pre1)
       (pre2 ++ (w ++ bodyText f q a sp sl) ++ post) (length pre1) 0)
  = [mkTag (w ++ bodyText f q a sp sl) (groupOf w) f a (length (pre1 ++ pre2))].
Proof.
  induction pre2 as [|c pre2 IH];
    intros pre1 Hpre Hline Hw Hf Hfl Hq Ha Hau Hsp Hsl Hpost Hpost2.
  - rewrite app_nil_r in *. cbn [app].
    assert (Hstart : w <> [] ->
              atLineStart (mkState (unitBefore None pre1) [] 0 noCaptures) = true).
    { intros _. unfold atLineStart. cbn [prev].
      destruct Hline as [-> | (b & c & -> & Hc)]; [reflexivity|].
      rewrite unitBefore_last. exact Hc. }
    rewrite <- app_assoc.
    destruct (matchHere_tag w f q a sp sl post (unitBefore None pre1) (length pre1)
                Hw Hstart Hf Hfl Hq Ha Hau Hsp Hsl Hpost)
      as (y & Hy & Hend & K1 & K2 & K4).
    assert (Hn : endIndex y - length pre1 = length (w ++ bodyText f q a sp sl))
      by lia.
    rewrite app_assoc in Hy |- *.
    destruct (w ++ bodyText f q a sp sl) as [|ch T] eqn:ET.
    { exfalso. apply (f_equal (@length char)) in ET.
      rewrite length_app, bodyText_length in ET. cbn in ET. lia. }
    cbn [app matchAllFrom] in *. rewrite Hy, Hn. cbn [length pred].
    rewrite matchAllFrom_covered, (matchAllFrom_no_webpack post Hpost2).
    cbn [map]. unfold destructure. cbn [matched index groups].
    rewrite K1, K2, K4. cbn [firstn].
    replace (firstn (length T) (T ++ post)) with T
      by (rewrite <- (Nat.add_0_r (length T)), firstn_app_2; cbn;
          rewrite app_nil_r; reflexivity).
    reflexivity.
  - cbn [app matchAllFrom].
    destruct (matchHere regexp (unitBefore None pre1)
                (c :: pre2 ++ (w ++ bodyText f q a sp sl) ++ post) (length pre1))
      as [y|] eqn:E.
    + exfalso.
      apply regexp_match_shape in E as (w' & f' & q' & a' & sp' & sl' & _ & Hs & _
                                        & Hw' & _).
      apply (tag_text_not_before pre1 (c :: pre2) w w'
               (f ++ lit " src=" ++ [q] ++ a ++ [q] ++ sp ++ sl ++ [GT] ++ post)
               (f' ++ lit " src=" ++ [q'] ++ a' ++ [q'] ++ sp' ++ sl' ++ [GT] ++ rest y)
               Hpre ltac:(discriminate) Hline Hw Hw').
      unfold bodyText in Hs. rewrite <- !app_assoc in Hs. cbn [app] in Hs |- *.
      exact Hs.
    + specialize (IH (pre1 ++ [c])).
      replace ((pre1 ++ [c]) ++ pre2) with (pre1 ++ c :: pre2) in IH
        by (rewrite <- app_assoc; reflexivity).
      rewrite unitBefore_last, (length_app pre1 [c]) in IH. cbn [length] in IH.
      rewrite Nat.add_1_r in IH.
      apply (IH Hpre Hline Hw Hf Hfl Hq Ha Hau Hsp Hsl Hpost Hpost2).
Qed.

Lemma tagsOf_on_its_line (pre w f : str) (q : char) (a sp sl post : str) :
  onItsLine pre w f q a sp sl post ->
  tagsOf (pre ++ (w ++ bodyText f q a sp sl) ++ post)
  = [mkTag (w ++ bodyText f q a sp sl) (groupOf w) f a (length pre)].
Proof.
  intros (Hpre & Hline & Hw & Hf & Hfl & Hq & Ha & Hau & Hsp & Hsl & Hpost & Hpost2).
  unfold tagsOf, matchAll.
  apply (tag_on_its_line_from w f q a sp sl post pre [] Hpre Hline Hw Hf Hfl Hq
           Ha Hau Hsp Hsl Hpost Hpost2).
Qed.

(** X9.  A tag that stands on a line of its own is read back as it
    was written.  If the text before it holds no [<webpack-] and ends a
    line (or is empty), the tag is a run of tabs and spaces, a verb of
    lower-case letters, a quote, a path argument without U+0003, the
    same quote, white space, an optional slash and the bracket, and
    the text after it holds no quote of that kind and no [<webpack-],
    then the document has one match: the tag with its leading run, that
    run as the whitespace, the verb, the path argument, and the length
    of the text before as the index. *)
Theorem X9_tag_on_its_line (pre w f : str) (q : char) (a sp sl post : str) :
  indexOf pre (lit "<webpack-") = (-1)%Z ->
  lineStartAfter pre ->
  forallb isTabOrSpace w = true ->
  f <> [] -> forallb isLower f = true ->
  (q = DQUOTE \/ q = SQUOTE) ->
  a <> [] -> forallb notU0003 a = true ->
  forallb isSpace sp = true -> (sl = [] \/ sl = [SLASH]) ->
  lacks q post = true ->
  indexOf post (lit "<webpack-") = (-1)%Z ->
  tagsOf (pre ++ (w ++ bodyText f q a sp sl) ++ post)
  = [mkTag (w ++ bodyText f q a sp sl) (groupOf w) f a (length pre)].
Proof.
  intros Hpre Hline Hw Hf Hfl Hq Ha Hau Hsp Hsl Hpost Hpost2.
  apply tagsOf_on_its_line. repeat split; assumption.
Qed.

Lemma indented_on_its_line :
  onItsLine MoreExamples.bodyBefore (lit "  ") (lit "inject") SQUOTE
            (lit "/repo/nav.html") (lit " ") [SLASH] MoreExamples.bodyAfter.
Proof.
  repeat split; try (vm_compute; reflexivity); try (vm_compute; discriminate).
  - right. exists (lit "<body>"), LF. split; reflexivity.
  - right. reflexivity.
  - right. reflexivity.
Qed.

Lemma X9_tag_on_its_line_witness :
  indexOf MoreExamples.bodyBefore (lit "<webpack-") = (-1)%Z
  /\ lineStartAfter MoreExamples.bodyBefore
  /\ forallb isTabOrSpace (lit "  ") = true
  /\ lit "inject" <> [] /\ forallb isLower (lit "inject") = true
  /\ (SQUOTE = DQUOTE \/ SQUOTE = SQUOTE)
  /\ lit "/repo/nav.html" <> []
  /\ forallb notU0003 (lit "/repo/nav.html") = true
  /\ forallb isSpace (lit " ") = true /\ ([SLASH] = [] \/ [SLASH] = [SLASH])
  /\ lacks SQUOTE MoreExamples.bodyAfter = true
  /\ indexOf MoreExamples.bodyAfter (lit "<webpack-") = (-1)%Z
  /\ tagsOf (MoreExamples.bodyBefore
             ++ (lit "  " ++ bodyText (lit "inject") SQUOTE (lit "/repo/nav.html")
                               (lit " ") [SLASH])
             ++ MoreExamples.bodyAfter)
     = [mkTag (lit "  " ++ bodyText (lit "inject") SQUOTE (lit "/repo/nav.html")
                             (lit " ") [SLASH])
          (groupOf (lit "  ")) (lit "inject") (lit "/repo/nav.html")
          (length MoreExamples.bodyBefore)].
Proof.
  destruct indented_on_its_line
    as (H1 & H2 & H3 & H4 & H5 & H6 & H7 & H8 & H9 & H10 & H11 & H12).
  repeat (split; [assumption|]).
  apply (X9_tag_on_its_line MoreExamples.bodyBefore (lit "  ") (lit "inject") SQUOTE
           (lit "/repo/nav.html") (lit " ") [SLASH] MoreExamples.bodyAfter
           H1 H2 H3 H4 H5 H6 H7 H8 H9 H10 H11 H12).
Defined.



















(** * The import verb on a host whose [find] checks its expression *)

(** The host of the worked examples is such a host, whatever its
    tables. *)
Lemma posix_find_checks_type cwd files found :
  findChecksType (Posix.host cwd files found).
Proof.
  intros start t expr. unfold Posix.host. cbn [cp_execFileSync].
  rewrite str_eqb_refl. reflexivity.
Qed.

(** Line 120 hands [find] the word [-f] after [-type]: [find] exits in
    error, and the import verb ends with the error of line 122, before
    it has written a statement. *)
Lemma addImportStatements_fails host pattern resourcePath :
  findChecksType host ->
  addImportStatements host pattern resourcePath
  = ([], Thrown (FailedToFindFiles pattern (path_dirname host resourcePath)
                   (HostError (lit "execFileSync")))).
Proof.
  intro Hfind. unfold addImportStatements.
  apply bind_Thrown, findMatchingFiles_failed.
  exact (Hfind (path_dirname host resourcePath) (lit "f") [lit "-name"; pattern]).
Qed.


(** C4.  On a host whose [find] checks its expression the import verb
    writes no statement, whatever the extension of the resource and
    whatever files there are: it ends with the error of [find], the
    word after [-type] on line 120 being [-f]. *)
Theorem C4_import_emits_no_line (host : Host) (pattern resourcePath : str) :
  findChecksType host ->
  addImportStatements host pattern resourcePath
  = ([], Thrown (FailedToFindFiles pattern (path_dirname host resourcePath)
                   (HostError (lit "execFileSync")))).
Proof. apply addImportStatements_fails. Qed.

Lemma C4_import_emits_no_line_witness :
  findChecksType Examples.scripts
  /\ addImportStatements Examples.scripts (lit "*.js") Examples.indexJs
     = ([], Thrown (FailedToFindFiles (lit "*.js")
                      (path_dirname Examples.scripts Examples.indexJs)
                      (HostError (lit "execFileSync")))).
Proof.
  split; [apply posix_find_checks_type|].
  apply (C4_import_emits_no_line Examples.scripts (lit "*.js") Examples.indexJs).
  apply posix_find_checks_type.
Defined.

(** The pass over [index.js], beside [a.js] and [b.js]: the tag fails,
    and the comment fallback throws for the extension [js]. *)
Lemma scripts_pass_throws :
  fs_readFileSync Examples.scripts (lit "/repo/src/a.js") <> None
  /\ fs_readFileSync Examples.scripts (lit "/repo/src/b.js") <> None
  /\ path_extname Examples.scripts Examples.indexJs = lit ".js"
  /\ importWord Examples.scripts Examples.indexJs = lit "@import"
  /\ parseAndReplace Examples.scripts 2 Examples.importJs Examples.indexJs
     = ([LogTagFailed (lit "import") Examples.indexJs 0
           (FailedToFindFiles (lit "*.js") (lit "/repo/src")
              (HostError (lit "execFileSync")))],
        Thrown (NotAValidFilePath Examples.indexJs)).
Proof. repeat split; vm_compute; try reflexivity; discriminate. Qed.



(** The pass over an import tag above an inject tag: the import tag is
    left in a comment, and the inject tag below it gives way to its
    file. *)
Lemma import_beside_inject :
  tagsOf MoreExamples.lessAndNav
  = [MoreExamples.importLessTag; MoreExamples.injectNavTag]
  /\ parseAndReplace Examples.navbar 2 MoreExamples.lessAndNav Examples.indexHtml
     = ([LogTagFailed (lit "import") Examples.indexHtml 0
           (FailedToFindFiles (lit "*.less") (lit "/repo/src")
              (HostError (lit "execFileSync")));
         LogInserting (lit "/repo/nav.html") Examples.indexHtml;
         AddDependency (lit "/repo/nav.html")],
        Returned (lit "<!-- <webpack-import src='*.less'> -->" ++ [LF]
                  ++ lit "<div id='navbar'>" ++ [LF] ++ lit "  <div>Home</div>"
                  ++ [LF] ++ lit "</div>")).
Proof. split; vm_compute; reflexivity. Qed.


(** * A tag inside an injected file *)





(** The pass over a document that injects the page: the part is in the
    page before the page is in the document, each line of it behind
    the white space of its tag. *)
Lemma page_in_page :
  parseAndReplace MoreExamples.pages 3 Examples.injectPage Examples.indexHtml
  = ([LogInserting (lit "/repo/page.html") Examples.indexHtml;
      AddDependency (lit "/repo/page.html");
      LogInserting (lit "/repo/part.html") (lit "/repo/page.html");
      AddDependency (lit "/repo/part.html")],
     Returned (lit "<main>" ++ [LF] ++ lit "  hello" ++ [LF] ++ lit "  world" ++ [LF]
               ++ lit "</main>")).
Proof. vm_compute; reflexivity. Qed.
